(** * fbgraph: URL construction and response normalisation of [lib/graph.js]

    A shallow embedding of the request pipeline of the [fbgraph] client
    ([GraphStream], [Graph], [PromiseGraph]) and the properties of its
    specification.

    Strings are JavaScript strings seen through their UTF-8 encoding: a
    [string] is the byte sequence of the text.  Every pattern the code
    searches for is plain ASCII, so searching, slicing a four character
    prefix and appending agree with the code unit view of the engine. *)

From Stdlib Require Import ZArith NArith Ascii String List Lia Bool PrimFloat.
From stdpp Require Import base option gmap strings list fin_maps pretty.

#[local] Set Warnings "-register-all".
#[local] Open Scope Z_scope.

(** ** JavaScript string primitives *)

Module JsString.

(** [s.startsWith(pat)]: the test behind every position of [indexOf]. *)
Fixpoint startsWith (pat s : string) : bool :=
  match pat, s with
  | EmptyString, _ => true
  | String _ _, EmptyString => false
  | String a pat', String b s' => Ascii.eqb a b && startsWith pat' s'
  end.

(** [s.indexOf(pat)]: the least position where [pat] starts, [-1] when
    there is none. *)
Fixpoint indexOf_from (s pat : string) (i : Z) : Z :=
  if startsWith pat s then i
  else match s with
       | EmptyString => -1
       | String _ s' => indexOf_from s' pat (i + 1)
       end.

Definition indexOf (s pat : string) : Z := indexOf_from s pat 0.

(** [~x] on the result of [indexOf], and the truth value of a number. *)
Definition bitnot (x : Z) : Z := Z.lnot x.
Definition truthyZ (x : Z) : bool := negb (x =? 0).

(** [~s.indexOf(pat)] used as a condition. *)
Definition includes (s pat : string) : bool := truthyZ (bitnot (indexOf s pat)).

(** [s.charAt(i)]: the one character string at [i], empty out of range. *)
Definition charAt (s : string) (i : nat) : string :=
  match String.get i s with
  | Some c => String c EmptyString
  | None => EmptyString
  end.

(** [s.substr(from, len)]. *)
Definition substr (s : string) (from len : nat) : string :=
  String.substring from len s.

(** Number of positions of [s] where [pat] starts. *)
Fixpoint occurrences (pat s : string) : nat :=
  ((if startsWith pat s then 1 else 0) +
   match s with
   | EmptyString => 0
   | String _ s' => occurrences pat s'
   end)%nat.

(** Byte [i] of [s] as a number, [0] past the end. *)
Definition byteAt (s : string) (i : nat) : N :=
  match String.get i s with
  | Some c => N_of_ascii c
  | None => 0%N
  end.

(** Length in bytes of the white space or line terminator character
    that starts [s], [0] when [s] starts with none.  The characters are
    those [String.prototype.trim] strips: U+0009 to U+000D, U+0020,
    U+00A0, U+1680, U+2000 to U+200A, U+2028, U+2029, U+202F, U+205F,
    U+3000 and U+FEFF. *)
Definition ws_len (s : string) : nat :=
  let a := byteAt s 0 in
  let b := byteAt s 1 in
  let c := byteAt s 2 in
  if ((9 <=? a) && (a <=? 13) || (a =? 32))%N then 1%nat
  else if ((a =? 194) && (b =? 160))%N then 2%nat
  else if ((a =? 225) && (b =? 154) && (c =? 128))%N then 3%nat
  else if ((a =? 226) && (b =? 128) &&
           ((128 <=? c) && (c <=? 138) || (c =? 168) || (c =? 169) || (c =? 175)))%N
       then 3%nat
  else if ((a =? 226) && (b =? 129) && (c =? 159))%N then 3%nat
  else if ((a =? 227) && (b =? 128) && (c =? 128))%N then 3%nat
  else if ((a =? 239) && (b =? 187) && (c =? 191))%N then 3%nat
  else 0%nat.

(** [s.trimStart()]; [skip] counts the bytes still to drop of the white
    space character being removed. *)
Fixpoint trimStart_go (skip : nat) (s : string) : string :=
  match s with
  | EmptyString => EmptyString
  | String _ s' =>
      match skip with
      | S k => trimStart_go k s'
      | O => match ws_len s with
             | O => s
             | S k => trimStart_go k s'
             end
      end
  end.

Definition trimStart (s : string) : string := trimStart_go 0 s.

(** [s.trimEnd()]: keep characters up to the point where only white
    space follows. *)
Fixpoint trimEnd (s : string) : string :=
  match s with
  | EmptyString => EmptyString
  | String c s' =>
      match trimStart s with
      | EmptyString => EmptyString
      | String _ _ => String c (trimEnd s')
      end
  end.

(** [s.trim()]. *)
Definition trim (s : string) : string := trimEnd (trimStart s).

End JsString.

(** ** HMAC-SHA256 as [crypto.createHmac('sha256', key)] computes it

    The digest follows FIPS 180-4 and RFC 2104 over 32 bit words held in
    [Z] with the wrap-around written out. *)

Module Crypto.

Definition w32 (x : Z) : Z := Z.land x 4294967295.
Definition add32 (a b : Z) : Z := w32 (a + b).
Definition rotr (n x : Z) : Z :=
  Z.lor (Z.shiftr x n) (w32 (Z.shiftl x (32 - n))).
Definition not32 (x : Z) : Z := Z.lxor x 4294967295.

Definition Ch (x y z : Z) : Z := Z.lxor (Z.land x y) (Z.land (not32 x) z).
Definition Maj (x y z : Z) : Z :=
  Z.lxor (Z.lxor (Z.land x y) (Z.land x z)) (Z.land y z).
Definition Sigma0 (x : Z) : Z := Z.lxor (Z.lxor (rotr 2 x) (rotr 13 x)) (rotr 22 x).
Definition Sigma1 (x : Z) : Z := Z.lxor (Z.lxor (rotr 6 x) (rotr 11 x)) (rotr 25 x).
Definition sigma0 (x : Z) : Z := Z.lxor (Z.lxor (rotr 7 x) (rotr 18 x)) (Z.shiftr x 3).
Definition sigma1 (x : Z) : Z := Z.lxor (Z.lxor (rotr 17 x) (rotr 19 x)) (Z.shiftr x 10).

(** The round constants and the initial hash value are the first 32
    bits of the fractional parts of the cube roots of the first 64
    primes and of the square roots of the first 8. *)
Definition is_prime (n : Z) : bool :=
  forallb (fun d => negb (n mod d =? 0))
          (List.map Z.of_nat (List.seq 2 (Z.to_nat n - 2))).

Definition primes : list Z :=
  List.filter is_prime (List.map Z.of_nat (List.seq 2 310)).

(** The integer [k]-th root of [n], found bit by bit from bit [b] down. *)
Fixpoint root_bits (k : Z) (b : nat) (n r : Z) : Z :=
  match b with
  | O => r
  | S b' =>
      let r' := r + Z.shiftl 1 (Z.of_nat b') in
      root_bits k b' n (if r' ^ k <=? n then r' else r)
  end.

Definition root_fraction (k p : Z) : Z :=
  w32 (root_bits k 40 (Z.shiftl p (32 * k)) 0).

Definition K256 : list Z :=
  Eval vm_compute in List.map (root_fraction 3) primes.

Definition H256 : list Z :=
  Eval vm_compute in List.map (root_fraction 2) (List.firstn 8 primes).

Definition bytes_of_string (s : string) : list Z :=
  List.map (fun c => Z.of_N (N_of_ascii c)) (list_ascii_of_string s).

(** Big-endian bytes of the low [8 * n] bits of [x]. *)
Fixpoint be_bytes (n : nat) (x : Z) : list Z :=
  match n with
  | O => []
  | S n' => Z.land (Z.shiftr x (8 * Z.of_nat n')) 255 :: be_bytes n' x
  end.

Definition pad (msg : list Z) : list Z :=
  let len := Z.of_nat (List.length msg) in
  let zeros := Z.to_nat ((55 - len) mod 64) in
  msg ++ [128] ++ List.repeat 0 zeros ++ be_bytes 8 (8 * len).

(** Big-endian words of a byte list (four bytes a word). *)
Fixpoint words_of (fuel : nat) (bs : list Z) : list Z :=
  match fuel, bs with
  | S fuel', a :: b :: c :: d :: rest =>
      (Z.shiftl a 24 + Z.shiftl b 16 + Z.shiftl c 8 + d) :: words_of fuel' rest
  | _, _ => []
  end.

(** Message schedule, most recent word first. *)
Fixpoint extend (n : nat) (rw : list Z) : list Z :=
  match n with
  | O => rw
  | S n' =>
      let w := add32 (add32 (sigma1 (nth 1 rw 0)) (nth 6 rw 0))
                     (add32 (sigma0 (nth 14 rw 0)) (nth 15 rw 0)) in
      extend n' (w :: rw)
  end.

Definition schedule (block : list Z) : list Z :=
  List.rev (extend 48 (List.rev block)).

Definition round (st : list Z) (kw : Z * Z) : list Z :=
  match st with
  | [a; b; c; d; e; f; g; h] =>
      let t1 := add32 (add32 (add32 h (Sigma1 e)) (Ch e f g))
                      (add32 (fst kw) (snd kw)) in
      let t2 := add32 (Sigma0 a) (Maj a b c) in
      [add32 t1 t2; a; b; c; add32 d t1; e; f; g]
  | _ => st
  end.

Definition compress (h : list Z) (block : list Z) : list Z :=
  let st := List.fold_left round (List.combine K256 (schedule block)) h in
  List.map (fun p => add32 (fst p) (snd p)) (List.combine h st).

(** Hash the word list sixteen words at a time. *)
Fixpoint blocks (fuel : nat) (h : list Z) (ws : list Z) : list Z :=
  match fuel, ws with
  | S fuel', _ :: _ => blocks fuel' (compress h (List.firstn 16 ws)) (List.skipn 16 ws)
  | _, _ => h
  end.

Definition sha256 (msg : list Z) : list Z :=
  let bs := pad msg in
  let ws := words_of (List.length bs) bs in
  List.flat_map (be_bytes 4) (blocks (List.length ws) H256 ws).

Definition hmac_sha256 (key msg : list Z) : list Z :=
  let k0 := if (64 <? Z.of_nat (List.length key)) then sha256 key else key in
  let k := k0 ++ List.repeat 0 (64 - List.length k0)%nat in
  let ipad := List.map (fun b => Z.lxor b 54) k in
  let opad := List.map (fun b => Z.lxor b 92) k in
  sha256 (opad ++ sha256 (ipad ++ msg)).

Definition hex_digit (n : Z) : ascii :=
  match Z.land n 15 with
  | 0 => "0" | 1 => "1" | 2 => "2" | 3 => "3" | 4 => "4" | 5 => "5"
  | 6 => "6" | 7 => "7" | 8 => "8" | 9 => "9" | 10 => "a" | 11 => "b"
  | 12 => "c" | 13 => "d" | 14 => "e" | _ => "f"
  end%char.

Fixpoint hex (bs : list Z) : string :=
  match bs with
  | [] => EmptyString
  | b :: bs' => String (hex_digit (Z.shiftr b 4)) (String (hex_digit b) (hex bs'))
  end.

(** [crypto.createHmac('sha256', key).update(msg).digest('hex')]. *)
Definition hmac_sha256_hex (key msg : string) : string :=
  hex (hmac_sha256 (bytes_of_string key) (bytes_of_string msg)).

End Crypto.

(** ** JavaScript values *)

(** The values the pipeline handles: response bodies, parsed JSON, query
    mappings, request options, error objects and callback arguments.
    [VError name] is an instance of the built-in error class [name]. *)
Inductive value : Type :=
| VUndefined
| VNull
| VBool (b : bool)
| VNumber (x : float)
| VString (s : string)
| VArray (xs : list value)
| VObject (fields : gmap string value)
| VError (name : string).

(** Truth value of [v] in a condition. *)
Definition truthy (v : value) : bool :=
  match v with
  | VUndefined | VNull => false
  | VBool b => b
  | VNumber x => negb (PrimFloat.eqb x PrimFloat.zero || PrimFloat.is_nan x)
  | VString s => negb (String.eqb s "")
  | VArray _ | VObject _ | VError _ => true
  end.

(** [a || b] and [a && b]. *)
Definition js_or (a b : value) : value := if truthy a then a else b.
Definition js_and (a b : value) : value := if truthy a then b else a.

(** [o[k]] on an options or fields mapping: [undefined] for a missing key. *)
Definition field (o : gmap string value) (k : string) : value :=
  default VUndefined (o !! k).

(** [v.k] for the keys the code reads ([error], [access_token]); on a
    value that is not an object the property is [undefined].  Reading a
    property of [null] or [undefined] throws: callers test [nullish]. *)
Definition member (v : value) (k : string) : value :=
  match v with
  | VObject o => field o k
  | _ => VUndefined
  end.

Definition nullish (v : value) : bool :=
  match v with
  | VUndefined | VNull => true
  | _ => false
  end.

(** The truth value of a configuration string as the URL builder reads
    it; [None] is a value that is not a string ([undefined] or [null]). *)
Definition truthy_str (t : option string) : bool :=
  match t with
  | Some s => negb (String.eqb s "")
  | None => false
  end.

(** The value of a header that may be missing: [undefined] then. *)
Definition value_of_str (t : option string) : value :=
  match t with
  | Some s => VString s
  | None => VUndefined
  end.

(** What the client holds as its access token: nothing yet
    ([undefined]), [null] (as after [setAccessToken(null)]), or a
    string, as the field is documented. *)
Inductive token : Type :=
| TokenUndefined
| TokenNull
| TokenString (s : string).

(** The token as the value it is: what the code passes on when it hands
    [getAccessToken()] or the field itself to a form. *)
Definition token_value (t : token) : value :=
  match t with
  | TokenUndefined => VUndefined
  | TokenNull => VNull
  | TokenString s => VString s
  end.

(** The token that a value is.  A value of another kind (a number, an
    array, an object) is not a token the client is typed to hold:
    [None], and the model says nothing of a client that stores it. *)
Definition token_of_value (v : value) : option token :=
  match v with
  | VUndefined => Some TokenUndefined
  | VNull => Some TokenNull
  | VString s => Some (TokenString s)
  | _ => None
  end.

(** The token as a string, for the URL builder, which tests it for
    truth and appends it only when it is truthy. *)
Definition token_text (t : token) : option string :=
  match t with
  | TokenString s => Some s
  | TokenUndefined | TokenNull => None
  end.

(** ** The platform functions the module calls

    [JSON.parse] and [url.parse(s, true).query] belong to the engine and
    to the [url] package, [qs.stringify] to the [qs] package.  A parser
    returns its result on the left or the exception it throws on the
    right. *)
Class Parsers : Type := {
  JSON_parse : string -> value + value;
  url_parse_query : string -> value + value;
}.

Class Stringifier : Type := {
  qs_stringify : value -> string;
}.

(** [JSON.stringify], which [batch] calls on its requests. *)
Class JsonWriter : Type := {
  JSON_stringify : value -> string;
}.

(** ** Client state: class [Graph] *)

Record Graph : Type := {
  accessToken : token;
  appSecret : option string;
  graphUrl : string;
  graphVersion : string;
  oauthDialogUrl : string;
  oauthDialogUrlMobile : string;
  requestOptions : value;
}.

Definition defaultGraph : Graph := {|
  accessToken := TokenUndefined;
  appSecret := None;
  graphUrl := "https://graph.facebook.com";
  graphVersion := "2.9";
  oauthDialogUrl := "https://www.facebook.com/v2.0/dialog/oauth?";
  oauthDialogUrlMobile := "https://m.facebook.com/v2.0/dialog/oauth?";
  requestOptions := VObject ∅;
|}.

(** [getAccessToken()] as the URL builder reads it. *)
Definition getAccessToken (g : Graph) : option string := token_text (accessToken g).

(** [getAccessToken()] as the value it returns. *)
Definition getAccessToken_value (g : Graph) : value := token_value (accessToken g).
Definition getAppSecret (g : Graph) : option string := appSecret g.
Definition getGraphUrl (g : Graph) : string := graphUrl g.
Definition getVersion (g : Graph) : string := graphVersion g.
Definition getOptions (g : Graph) : value := requestOptions g.

Definition setAccessToken (t : token) (g : Graph) : Graph := {|
  accessToken := t;
  appSecret := appSecret g;
  graphUrl := graphUrl g;
  graphVersion := graphVersion g;
  oauthDialogUrl := oauthDialogUrl g;
  oauthDialogUrlMobile := oauthDialogUrlMobile g;
  requestOptions := requestOptions g;
|}.

Definition setAppSecret (token : option string) (g : Graph) : Graph := {|
  accessToken := accessToken g;
  appSecret := token;
  graphUrl := graphUrl g;
  graphVersion := graphVersion g;
  oauthDialogUrl := oauthDialogUrl g;
  oauthDialogUrlMobile := oauthDialogUrlMobile g;
  requestOptions := requestOptions g;
|}.

(** [typeof v === 'object']: objects, arrays, error instances and
    [null]. *)
Definition is_object (v : value) : bool :=
  match v with
  | VNull | VArray _ | VObject _ | VError _ => true
  | _ => false
  end.

(** [setOptions] keeps the old options unless it is given an object. *)
Definition setOptions (options : value) (g : Graph) : Graph :=
  if is_object options
  then {|
    accessToken := accessToken g;
    appSecret := appSecret g;
    graphUrl := graphUrl g;
    graphVersion := graphVersion g;
    oauthDialogUrl := oauthDialogUrl g;
    oauthDialogUrlMobile := oauthDialogUrlMobile g;
    requestOptions := options;
  |}
  else g.

(** The elements of an array under their indices, from index [i] on. *)
Fixpoint indexed (i : nat) (xs : list value) : gmap string value :=
  match xs with
  | [] => ∅
  | x :: xs' => <[pretty i := x]> (indexed (S i) xs')
  end.

(** [Object.assign({}, v)]: the own enumerable properties of [v]. *)
Definition own_props (v : value) : gmap string value :=
  match v with
  | VObject o => o
  | VArray xs => indexed 0 xs
  | _ => ∅
  end.

(** [setVersion] also rebuilds the two dialog URLs. *)
Definition setVersion (version : string) (g : Graph) : Graph := {|
  accessToken := accessToken g;
  appSecret := appSecret g;
  graphUrl := graphUrl g;
  graphVersion := version;
  oauthDialogUrl := "https://www.facebook.com/v" +:+ version +:+ "/dialog/oauth?";
  oauthDialogUrlMobile := "https://m.facebook.com/v" +:+ version +:+ "/dialog/oauth?";
  requestOptions := requestOptions g;
|}.

Definition setGraphUrl (url : string) (g : Graph) : Graph := {|
  accessToken := accessToken g;
  appSecret := appSecret g;
  graphUrl := url;
  graphVersion := graphVersion g;
  oauthDialogUrl := oauthDialogUrl g;
  oauthDialogUrlMobile := oauthDialogUrlMobile g;
  requestOptions := requestOptions g;
|}.

(** The characters of a string under their indices, from index [i] on. *)
Fixpoint indexed_chars (i : nat) (s : string) : gmap string value :=
  match s with
  | EmptyString => ∅
  | String c s' => <[pretty i := VString (String c EmptyString)]> (indexed_chars (S i) s')
  end.

(** The properties [Object.assign] copies from a source of any kind: a
    string gives its characters, [null], [undefined], numbers and
    booleans give nothing. *)
Definition assigned_props (v : value) : gmap string value :=
  match v with
  | VString s => indexed_chars 0 s
  | _ => own_props v
  end.

(** [Object.assign(target, source)]: the source's properties win. *)
Definition assign (target : gmap string value) (source : value) : gmap string value :=
  assigned_props source ∪ target.

(** ** Class [GraphStream] *)

Inductive method : Type := GET | POST.

Definition method_name (m : method) : string :=
  match m with
  | GET => "GET"
  | POST => "POST"
  end.

(** One invocation [this.callback(err, json)]. *)
Record completion : Type := Callback { cb_err : value; cb_res : value }.

(** A call into a platform parser, with the text it is given. *)
Inductive parser_call : Type :=
| CallJSONParse (text : string)
| CallUrlParse (text : string).

(** What running a handler to its end does: it returns after the listed
    callback invocations, or an exception leaves it before any. *)
Inductive outcome : Type :=
| Returned (calls : list completion)
| Threw (e : value).

(** What the transport reports of a response: its headers. *)
Record response : Type := { headers : gmap string string }.

(** What the transport does with the two handlers of a request: it calls
    the function given with the options, or emits an [error] event. *)
Inductive transport_event : Type :=
| Completed (err : value) (res : response) (body : value)
| ErrorEmitted (err : value).

Module GraphStream.
Import JsString.

(** The longest prefix of [s] without an ampersand. *)
Fixpoint until_amp (s : string) : string :=
  match s with
  | EmptyString => EmptyString
  | String c s' => if Ascii.eqb c "&"%char then EmptyString else String c (until_amp s')
  end.

(** [s] without its prefix [pat], when it starts with [pat]. *)
Fixpoint after_prefix (pat s : string) : option string :=
  match pat, s with
  | EmptyString, _ => Some s
  | String _ _, EmptyString => None
  | String a pat', String b s' =>
      if Ascii.eqb a b then after_prefix pat' s' else None
  end.

(** [regex.exec(url)] for the pattern [access_token=] followed by a
    captured run of characters other than the ampersand, reduced to
    [results[1]] of the leftmost match; [None] when there is no match. *)
Fixpoint exec_access_token (url : string) : option string :=
  match after_prefix "access_token=" url with
  | Some rest => Some (until_amp rest)
  | None =>
      match url with
      | EmptyString => None
      | String _ url' => exec_access_token url'
      end
  end.

(** The text of an optional string in a concatenation. *)
Definition text (t : option string) : string :=
  match t with
  | Some s => s
  | None => "undefined"
  end.

(** [url += ~url.indexOf('?') ? '&' : '?'; url += piece]. *)
Definition add_param (url piece : string) : string :=
  (url +:+ (if includes url "?" then "&" else "?")) +:+ piece.

Definition cleanUrl (g : Graph) (url : string) : string :=
  let url := trim url in
  let results := exec_access_token url in
  let sessionAccessToken :=
    match results with
    | Some r => Some r
    | None => getAccessToken g
    end in
  let url :=
    if negb (String.eqb (charAt url 0) "/") && negb (String.eqb (substr url 0 4) "http")
    then "/" +:+ url else url in
  let url :=
    if truthy_str (getAccessToken g) && (indexOf url "access_token=" =? -1)
    then add_param url ("access_token=" +:+ text (getAccessToken g)) else url in
  let url :=
    if truthy_str sessionAccessToken && truthy_str (getAppSecret g)
       && (indexOf url "appsecret_proof" =? -1)
    then add_param url
           ("appsecret_proof=" +:+
            Crypto.hmac_sha256_hex (text (getAppSecret g)) (text sessionAccessToken))
    else url in
  url.

Definition prepareUrl (g : Graph) (url : string) : string :=
  let url := cleanUrl g url in
  if negb (String.eqb (substr url 0 4) "http")
  then getGraphUrl g +:+ "/v" +:+ getVersion g +:+ url
  else url.

(** The constructor's [this.options]. *)
Definition options (g : Graph) (m : method) (url : string) : gmap string value :=
  let url := prepareUrl g url in
  let options := own_props (getOptions g) in
  let options := <["encoding" := js_or (field options "encoding") (VString "utf-8")]> options in
  let options := <["method" := VString (method_name m)]> options in
  let options := <["uri" := VString url]> options in
  <["followRedirect" := VBool false]> options.

Definition parse_error (e : value) : value :=
  VObject (<["message" := VString "Error parsing json"]> (<["exception" := e]> ∅)).

Definition transport_error (err : value) : value :=
  VObject (<["message" := VString "Error processing https request"]>
           (<["exception" := err]> ∅)).

Definition image_marker (res : response) : value :=
  VObject (<["image" := VBool true]>
           (<["location" := value_of_str (headers res !! "location")]> ∅)).

Section WithRuntime.
Context {P : Parsers} {Q : Stringifier}.

(** The [try] block of [end] on a body that left [json] falsy: the
    parser calls made, then the parsed value or the exception. *)
Definition end_try (body : value) : list parser_call * (value + value) :=
  match body with
  | VString s =>
      if includes s "{" && includes s "}"
      then ([CallJSONParse s], JSON_parse s)
      else
        let s := if negb (includes s "=") then "data=" +:+ s else s in
        let s := if negb (String.eqb (charAt s 0) "?") then "?" +:+ s else s in
        ([CallUrlParse s], url_parse_query s)
  | _ => ([], inr (VError "TypeError"))
  end.

(** [end(body)] with the parser calls it made. *)
Definition end_trace (body : value) : list parser_call * completion :=
  let json := match body with VString _ => VNull | _ => body end in
  let err := VNull in
  let '(calls, err, json) :=
    if negb (truthy json)
    then match end_try body with
         | (calls, inl v) => (calls, err, v)
         | (calls, inr e) => (calls, parse_error e, json)
         end
    else ([], err, json) in
  let err :=
    if negb (truthy err) && truthy (js_and json (member json "error"))
    then member json "error" else err in
  (calls, Callback err json).

Definition end_ (body : value) : completion := snd (end_trace body).

(** The function [get] hands to [request.get]. *)
Definition get_callback (err : value) (res : response) (body : value) : outcome :=
  if truthy err then Returned [Callback (transport_error err) VNull]
  else match headers res !! "content-type" with
       | None => Threw (VError "TypeError")
       | Some ct =>
           let body := if includes ct "image" then image_marker res else body in
           Returned [end_ body]
       end.

(** The function [post] hands to [request]. *)
Definition post_callback (err : value) (res : response) (body : value) : outcome :=
  if truthy err then Returned [Callback (transport_error err) VNull]
  else Returned [end_ body].

(** The listener both wrappers put on the [error] event. *)
Definition on_error (err : value) : outcome :=
  Returned [Callback (transport_error err) VNull].

(** The handler of stream [m] that a transport event runs. *)
Definition handle (m : method) (ev : transport_event) : outcome :=
  match ev, m with
  | Completed err res body, GET => get_callback err res body
  | Completed err res body, POST => post_callback err res body
  | ErrorEmitted err, _ => on_error err
  end.

(** The options handed to the transport: [post] adds the form body. *)
Definition request_options (g : Graph) (m : method) (url : string)
    (postData : value) : gmap string value :=
  match m with
  | GET => options g m url
  | POST => <["body" := VString (qs_stringify postData)]> (options g m url)
  end.

End WithRuntime.

End GraphStream.

(** Callback invocations a handler made: none when it threw. *)
Definition invocations (o : outcome) : list completion :=
  match o with
  | Returned calls => calls
  | Threw _ => []
  end.

(** ** The public calls of class [Graph] *)

(** What a call does before the transport answers: it completes at once
    through the callback, it sends one request with the given options,
    or it throws. *)
Inductive dispatch : Type :=
| Immediate (c : completion)
| Sent (m : method) (opts : gmap string value)
| Raised (e : value).

(** [setAccessToken(v)] for a value taken from a response; [None] when
    [v] is not a token the client is typed to hold. *)
Definition store_token (v : value) (g : Graph) : option Graph :=
  match token_of_value v with
  | Some t => Some (setAccessToken t g)
  | None => None
  end.

(** Run the callback [k] a wrapper passed down, on each invocation the
    stream made; [k] returns the client state it leaves and what it did
    with the caller's callback, or [None] when it was to store a value
    that is not a token. *)
Fixpoint deliver (k : Graph -> completion -> option (Graph * outcome)) (g : Graph)
    (calls : list completion) : option (Graph * outcome) :=
  match calls with
  | [] => Some (g, Returned [])
  | c :: rest =>
      match k g c with
      | Some (g', Returned made) =>
          match deliver k g' rest with
          | Some (g'', Returned more) => Some (g'', Returned (made ++ more))
          | other => other
          end
      | other => other
      end
  end.

Module Graph.
Import JsString.

Definition invalid_url : completion :=
  Callback (VObject (<["message" := VString "Graph api url must be a string"]> ∅)) VNull.

Section WithRuntime.
Context {P : Parsers} {Q : Stringifier}.

(** [get(url, params, callback)]; a call without [params] has
    [params = null]. *)
Definition get (g : Graph) (url params : value) : dispatch :=
  match url with
  | VString u =>
      let u := if truthy params
               then GraphStream.add_param u (qs_stringify params) else u in
      Sent GET (GraphStream.request_options g GET u (VObject ∅))
  | _ => Immediate invalid_url
  end.

(** [post(url, postData, callback)]; [postData = None] is the call
    that passes the callback in its place.  The [url] is tested before
    the callback is moved out of [postData]: for that call the error
    reply calls [undefined] and throws. *)
Definition post (g : Graph) (url : value) (postData : option value) : dispatch :=
  match url with
  | VString u =>
      let postData :=
        match postData with
        | Some d => d
        | None =>
            if negb (indexOf u "access_token" =? -1) then VObject ∅
            else VObject (<["access_token" := token_value (accessToken g)]> ∅)
        end in
      Sent POST (GraphStream.request_options g POST u postData)
  | _ =>
      match postData with
      | Some _ => Immediate invalid_url
      | None => Raised (VError "TypeError")
      end
  end.

(** The callback [authorize] passes to [get]. *)
Definition authorize_callback (g : Graph) (c : completion)
    : option (Graph * outcome) :=
  if negb (truthy (cb_err c))
  then if nullish (cb_res c) then Some (g, Threw (VError "TypeError"))
       else match store_token (member (cb_res c) "access_token") g with
            | Some g' => Some (g', Returned [c])
            | None => None
            end
  else Some (g, Returned [c]).

Definition authorize (g : Graph) (params : value) : dispatch :=
  get g (VString "/oauth/access_token") params.

(** The two assignments [extendAccessToken] makes to [params]. *)
Definition exchange_params (g : Graph) (params : gmap string value)
    : gmap string value :=
  let params := <["grant_type" := VString "fb_exchange_token"]> params in
  <["fb_exchange_token" :=
      if truthy (field params "access_token") then field params "access_token"
      else getAccessToken_value g]> params.

(** The request [extendAccessToken(params, callback)] sends. *)
Definition extendAccessToken (g : Graph) (params : gmap string value) : dispatch :=
  get g (VString "/oauth/access_token") (VObject (exchange_params g params)).

(** The callback [extendAccessToken] passes to [get]; [params] is the
    object after the two assignments. *)
Definition extendAccessToken_callback (params : gmap string value)
    (g : Graph) (c : completion) : option (Graph * outcome) :=
  if negb (truthy (cb_err c)) && negb (truthy (field params "access_token"))
  then if nullish (cb_res c) then Some (g, Threw (VError "TypeError"))
       else match store_token (member (cb_res c) "access_token") g with
            | Some g' => Some (g', Returned [c])
            | None => None
            end
  else Some (g, Returned [c]).

(** [extendAccessToken] from the transport's answer on: the stream's
    handler runs, and each callback invocation goes through the
    callback above. *)
Definition extendAccessToken_complete (g : Graph) (params : gmap string value)
    (ev : transport_event) : option (Graph * outcome) :=
  match GraphStream.handle GET ev with
  | Returned calls =>
      deliver (extendAccessToken_callback (exchange_params g params)) g calls
  | Threw e => Some (g, Threw e)
  end.

End WithRuntime.

Section WithWriters.
Context {P : Parsers} {Q : Stringifier} {J : JsonWriter}.

(** [a] and [b] are the same letter up to case, or the same byte: the
    comparison of a pattern with the [i] flag on bytes. *)
Definition same_letter (a b : ascii) : bool :=
  let fold (c : ascii) : N :=
    let n := N_of_ascii c in
    if ((65 <=? n) && (n <=? 90))%N then (n + 32)%N else n in
  (fold a =? fold b)%N.

Fixpoint startsWith_ci (pat s : string) : bool :=
  match pat, s with
  | EmptyString, _ => true
  | String _ _, EmptyString => false
  | String a pat', String b s' => same_letter a b && startsWith_ci pat' s'
  end.

(** Whether the pattern of [del] matches: one of the characters [?],
    [|] and [&], then [method=delete] in any case. *)
Fixpoint matches_method_delete (url : string) : bool :=
  match url with
  | EmptyString => false
  | String c rest =>
      ((Ascii.eqb c "?" || Ascii.eqb c "|" || Ascii.eqb c "&")%char
       && startsWith_ci "method=delete" rest)
      || matches_method_delete rest
  end.

(** The object [post] and [del] send when [postData] is left out. *)
Definition default_postData (g : Graph) (url : string) : value :=
  if negb (indexOf url "access_token" =? -1) then VObject ∅
  else VObject (<["access_token" := token_value (accessToken g)]> ∅).

(** [del(url, postData, callback)]; [postData = None] is the call that
    passes the callback in its place.  Calling [match] on a [url] that
    is not a string throws. *)
Definition del (g : Graph) (url : value) (postData : option value)
    : dispatch + value :=
  match url with
  | VString u =>
      let u := if negb (matches_method_delete u)
               then GraphStream.add_param u "method=delete" else u in
      let postData :=
        match postData with
        | Some d => d
        | None => default_postData g u
        end in
      inl (post g (VString u) (Some postData))
  | _ => inr (VError "TypeError")
  end.

Definition invalid_batch : completion :=
  Callback
    (VObject (<["message" := VString "Graph api batch requests must be an array"]> ∅))
    VNull.

(** The form fields of a batch before [additionalData] is merged in. *)
Definition batch_fields (g : Graph) (reqs : value) : gmap string value :=
  <["access_token" := token_value (accessToken g)]>
    (<["batch" := VString (JSON_stringify reqs)]> ∅).

(** [batch(reqs, additionalData, callback)]; [additionalData = None] is
    the call that passes the callback in its place.  The requests are
    tested before the callback is moved out of [additionalData]: for
    that call the error reply calls [undefined] and throws. *)
Definition batch (g : Graph) (reqs : value) (additionalData : option value) : dispatch :=
  match reqs with
  | VArray _ =>
      let additionalData :=
        match additionalData with
        | Some d => d
        | None => VObject ∅
        end in
      Sent POST
        (GraphStream.request_options g POST ""
           (VObject (assign (assign ∅ (VObject (batch_fields g reqs))) additionalData)))
  | _ =>
      match additionalData with
      | Some _ => Immediate invalid_batch
      | None => Raised (VError "TypeError")
      end
  end.

(** [getOauthUrl(params, opts)]. *)
Definition getOauthUrl (g : Graph) (params opts : value) : string :=
  let url := if truthy (js_and opts (member opts "mobile"))
             then oauthDialogUrlMobile g else oauthDialogUrl g in
  url +:+ qs_stringify params.

(** [authorize] from the transport's answer on. *)
Definition authorize_complete (g : Graph) (ev : transport_event)
    : option (Graph * outcome) :=
  match GraphStream.handle GET ev with
  | Returned calls => deliver authorize_callback g calls
  | Threw e => Some (g, Threw e)
  end.

End WithWriters.
End Graph.

(** ** Class [PromiseGraph] *)

(** How a promise ends. *)
Inductive settled : Type :=
| Resolved (v : value)
| Rejected (e : value).

Module PromiseGraph.

(** The callback [util.promisify] passes: the first invocation settles
    the promise. *)
Definition promisified (calls : list completion) : option settled :=
  match calls with
  | [] => None
  | c :: _ => Some (if truthy (cb_err c) then Rejected (cb_err c) else Resolved (cb_res c))
  end.

Section WithRuntime.
Context {P : Parsers} {Q : Stringifier}.

(** [get(url, params)]: [Graph.get] with the promise's callback. *)
Definition get (g : Graph) (url params : value) : dispatch :=
  Graph.get g url params.

(** [authorize] after [await this.get(...)]; [None] when the answer's
    [access_token] is no token of the typed client. *)
Definition authorize_resume (g : Graph) (s : settled) : option (Graph * settled) :=
  match s with
  | Rejected e => Some (g, Rejected e)
  | Resolved res =>
      if nullish res then Some (g, Rejected (VError "TypeError"))
      else match store_token (member res "access_token") g with
           | Some g' => Some (g', Resolved res)
           | None => None
           end
  end.

(** The request [extendAccessToken(params)] sends. *)
Definition extendAccessToken (g : Graph) (params : gmap string value) : dispatch :=
  get g (VString "/oauth/access_token") (VObject (Graph.exchange_params g params)).

(** [extendAccessToken] after [await this.get(...)]; [params] is the
    object after the two assignments. *)
Definition extendAccessToken_resume (params : gmap string value)
    (g : Graph) (s : settled) : option (Graph * settled) :=
  match s with
  | Rejected e => Some (g, Rejected e)
  | Resolved res =>
      if truthy (field params "access_token")
      then if nullish res then Some (g, Rejected (VError "TypeError"))
           else match store_token (member res "access_token") g with
                | Some g' => Some (g', Resolved res)
                | None => None
                end
      else Some (g, Resolved res)
  end.

(** [extendAccessToken] from the transport's answer on; the inner
    [None] is a promise that never settles, the outer one an answer
    whose [access_token] is no token of the typed client. *)
Definition extendAccessToken_complete (g : Graph) (params : gmap string value)
    (ev : transport_event) : option (Graph * option settled) :=
  match promisified (invocations (GraphStream.handle GET ev)) with
  | Some s =>
      match extendAccessToken_resume (Graph.exchange_params g params) g s with
      | Some (g', s') => Some (g', Some s')
      | None => None
      end
  | None => Some (g, None)
  end.

End WithRuntime.

Section WithWriters.
Context {P : Parsers} {Q : Stringifier} {J : JsonWriter}.

(** [authorize] from the transport's answer on; the inner [None] is a
    promise that never settles, the outer one an answer whose
    [access_token] is no token of the typed client. *)
Definition authorize_complete (g : Graph) (ev : transport_event)
    : option (Graph * option settled) :=
  match promisified (invocations (GraphStream.handle GET ev)) with
  | Some s =>
      match authorize_resume g s with
      | Some (g', s') => Some (g', Some s')
      | None => None
      end
  | None => Some (g, None)
  end.

(** [post], [del] and [batch] pass their second argument on as it is,
    also when it is [undefined]. *)
Definition post (g : Graph) (url postData : value) : dispatch :=
  Graph.post g url (Some postData).

Definition del (g : Graph) (url postData : value) : dispatch + value :=
  Graph.del g url (Some postData).

Definition batch (g : Graph) (reqs additionalData : value) : dispatch :=
  Graph.batch g reqs (Some additionalData).

End WithWriters.
End PromiseGraph.

(** ** Reference platform functions

    Small instances of [Parsers] and [Stringifier] to run the model on
    concrete bodies.
    The query parser splits at every ampersand and at the first equals
    sign of each part and keeps the first value of a repeated key, which
    is what the [url] package does on text free of escapes and of
    repeated keys.  The JSON parser accepts the empty object and rejects
    every other text. *)

Module Reference.

Fixpoint split_on (sep : ascii) (s acc : string) : list string :=
  match s with
  | EmptyString => [String.rev acc]
  | String c s' =>
      if Ascii.eqb c sep then String.rev acc :: split_on sep s' EmptyString
      else split_on sep s' (String c acc)
  end.

Fixpoint key_value (s key : string) : string * string :=
  match s with
  | EmptyString => (String.rev key, EmptyString)
  | String c s' =>
      if Ascii.eqb c "="%char then (String.rev key, s')
      else key_value s' (String c key)
  end.

Definition parse_query (s : string) : value + value :=
  let q := match s with String "?" q => q | _ => s end in
  inl (VObject
    (List.fold_left
       (fun (o : gmap string value) part =>
          if String.eqb part "" then o
          else let '(k, v) := key_value part EmptyString in
               match o !! k with
               | Some _ => o
               | None => <[k := VString v]> o
               end)
       (split_on "&"%char q EmptyString) ∅)).

Definition parse_json (s : string) : value + value :=
  if String.eqb s "{}" then inl (VObject ∅) else inr (VError "SyntaxError").

Definition parsers : Parsers := {|
  JSON_parse := parse_json;
  url_parse_query := parse_query;
|}.

(** The string fields of an object as [key=value] pairs joined by
    ampersands, in the order of the mapping and without escapes; the
    empty text for the empty object and for what is not an object. *)
Definition stringify (v : value) : string :=
  match v with
  | VObject o =>
      String.concat "&"
        (omap (fun kv : string * value =>
                 match snd kv with
                 | VString s => Some (fst kv +:+ "=" +:+ s)
                 | _ => None
                 end)
              (map_to_list o))
  | _ => ""
  end.

Definition stringifier : Stringifier := {| qs_stringify := stringify |}.

(** A JSON writer for arrays of strings, booleans and [null], nested at
    will, without escapes in the strings; everything else is written as
    [null]. *)
Fixpoint write_json (v : value) : string :=
  match v with
  | VString s => String.concat "" [String "034" EmptyString; s; String "034" EmptyString]
  | VBool true => "true"
  | VBool false => "false"
  | VArray xs => String.concat "" ["["; String.concat "," (List.map write_json xs); "]"]
  | _ => "null"
  end.

Definition json_writer : JsonWriter := {| JSON_stringify := write_json |}.

End Reference.

(** ** Vocabulary of the statements *)

Module Chars.

(** [c] occurs in [s]. *)
Fixpoint mem_char (c : ascii) (s : string) : bool :=
  match s with
  | EmptyString => false
  | String a s' => Ascii.eqb c a || mem_char c s'
  end.

(** A byte that white space is made of: a control character, the
    space, or a byte of a multi-byte character. *)
Definition blank (c : ascii) : bool :=
  let n := N_of_ascii c in ((n <=? 32) || (128 <=? n))%N.

Fixpoint all_blank (s : string) : bool :=
  match s with
  | EmptyString => true
  | String c s' => blank c && all_blank s'
  end.

(** The first [n] bytes of [s], as far as it has them, are blank. *)
Fixpoint blank_prefix (n : nat) (s : string) : bool :=
  match n, s with
  | O, _ => true
  | S _, EmptyString => true
  | S k, String c s' => blank c && blank_prefix k s'
  end.

(** Every character of [s] is one of [alphabet]. *)
Fixpoint over (alphabet s : string) : bool :=
  match s with
  | EmptyString => true
  | String c s' => mem_char c alphabet && over alphabet s'
  end.

End Chars.

(** The steps of [cleanUrl], named for the statements. *)
Module Steps.
Import JsString.

(** The trimmed path after the leading slash step. *)
Definition rooted (url : string) : string :=
  let url := trim url in
  if negb (String.eqb (charAt url 0) "/") && negb (String.eqb (substr url 0 4) "http")
  then "/" +:+ url else url.

(** The token the proof is computed from: the one embedded in the
    path when the path has one, the client's otherwise. *)
Definition signing_token (g : Graph) (url : string) : option string :=
  match GraphStream.exec_access_token (trim url) with
  | Some r => Some r
  | None => getAccessToken g
  end.

(** The separator and proof parameter for secret [k] and token [x]. *)
Definition proof_param (k x : string) : string :=
  "appsecret_proof=" +:+ Crypto.hmac_sha256_hex k x.

(** The text [end] hands to the query parser for a body [s] that does
    not look like a JSON object. *)
Definition query_text (s : string) : string :=
  let s := if negb (includes s "=") then "data=" +:+ s else s in
  if negb (String.eqb (charAt s 0) "?") then "?" +:+ s else s.

Definition hex_digits : string := "0123456789abcdef".

End Steps.

(** ** Sample clients, responses and bodies *)

Module Samples.

Definition signed_client : Graph := setAppSecret (Some "s") defaultGraph.

Definition token_client : Graph :=
  setAppSecret (Some "s") (setAccessToken (TokenString "tok") defaultGraph).

(** A client whose token holds the text of the token parameter. *)
Definition odd_token_client : Graph :=
  setAccessToken (TokenString "access_token=") defaultGraph.

Definition old_token_client : Graph := setAccessToken (TokenString "old") defaultGraph.

(** A client that asks the transport for raw buffers. *)
Definition buffer_client : Graph :=
  setOptions
    (VObject (<["encoding" := VNull]> (<["timeout" := VNumber 30000%float]> ∅)))
    defaultGraph.

Definition json_response : response :=
  {| headers := <["content-type" := "application/json"]> ∅ |}.

Definition image_response : response :=
  {| headers := <["content-type" := "image/jpeg"]>
                (<["location" := "https://cdn.example/p.jpg"]> ∅) |}.

Definition bare_response : response := {| headers := ∅ |}.

Definition remote_error : value := VObject (<["message" := VString "bad"]> ∅).

Definition remote_error_body : value := VObject (<["error" := remote_error]> ∅).

Definition node_body : value := VObject (<["id" := VString "1"]> ∅).

Definition own_token_params : gmap string value :=
  <["access_token" := VString "mine"]> ∅.

End Samples.

Example sha256_abc :
  Crypto.hex (Crypto.sha256 (Crypto.bytes_of_string "abc")) =
  "ba7816bf8f01cfea414140de5dae2223b00361a396177a9cb410ff61f20015ad"%string.
Proof. vm_compute. reflexivity. Qed.

Example hmac_rfc4231_case2 :
  Crypto.hmac_sha256_hex "Jefe" "what do ya want for nothing?" =
  "5bdcc146bf60754e6a042426089575c75a003f089d2739839dec58b964ec3843"%string.
Proof. vm_compute. reflexivity. Qed.

Section StringFacts.
Import JsString Chars.

Lemma str_app_cons c s t : String c s +:+ t = String c (s +:+ t).
Proof. reflexivity. Qed.

Lemma str_app_nil_l s : "" +:+ s = s.
Proof. reflexivity. Qed.

Lemma str_app_nil_r s : s +:+ "" = s.
Proof. induction s as [|c s IH]; [reflexivity|]. by rewrite str_app_cons, IH. Qed.

Lemma str_app_assoc s t u : (s +:+ t) +:+ u = s +:+ (t +:+ u).
Proof. induction s as [|c s IH]; [reflexivity|]. by rewrite !str_app_cons, IH. Qed.

Lemma mem_char_app c s t : mem_char c (s +:+ t) = mem_char c s || mem_char c t.
Proof.
  induction s as [|a s IH]; [reflexivity|].
  rewrite str_app_cons. simpl. rewrite IH. apply orb_assoc.
Qed.

Lemma startsWith_nil_r pat : pat ≠ "" → startsWith pat "" = false.
Proof. by destruct pat. Qed.

Lemma startsWith_app_l pat s t :
  startsWith pat s = true → startsWith pat (s +:+ t) = true.
Proof.
  revert s. induction pat as [|a pat IH]; intros [|b s]; simpl; try done.
  rewrite ?str_app_cons. simpl. intros [-> H]%andb_prop. simpl. by apply IH.
Qed.

Lemma startsWith_self pat s : startsWith pat (pat +:+ s) = true.
Proof.
  induction pat as [|a pat IH]; [reflexivity|].
  rewrite str_app_cons. simpl. by rewrite Ascii.eqb_refl.
Qed.

Lemma startsWith_mem pat s c :
  startsWith pat s = true → mem_char c pat = true → mem_char c s = true.
Proof.
  revert s. induction pat as [|a pat IH]; intros [|b s]; simpl; try done.
  intros [Hab H]%andb_prop [Hc|Hc]%orb_prop.
  - apply Ascii.eqb_eq in Hab as ->. by rewrite Hc.
  - rewrite (IH s H Hc). apply orb_true_r.
Qed.

(** A character foreign to the pattern cuts the text in two. *)
Lemma startsWith_sep pat s t c :
  mem_char c pat = false →
  startsWith pat (s +:+ String c t) = startsWith pat s.
Proof.
  revert s. induction pat as [|a pat IH]; intros s Hc; [by destruct s|].
  simpl in Hc. apply orb_false_elim in Hc as [Ha Hc].
  destruct s as [|b s].
  - rewrite str_app_nil_l. simpl. by rewrite Ascii.eqb_sym, Ha.
  - rewrite str_app_cons. simpl. by rewrite IH.
Qed.

Lemma occurrences_sep pat s t c :
  pat ≠ "" → mem_char c pat = false →
  occurrences pat (s +:+ String c t) = (occurrences pat s + occurrences pat t)%nat.
Proof.
  intros Hne Hc. induction s as [|b s IH].
  - rewrite str_app_nil_l. simpl.
    rewrite <- (str_app_nil_l (String c t)), startsWith_sep by done.
    by rewrite startsWith_nil_r.
  - rewrite str_app_cons. simpl. rewrite IH.
    rewrite <- str_app_cons, startsWith_sep by done. lia.
Qed.

Lemma occurrences_absent pat s c :
  mem_char c pat = true → mem_char c s = false → occurrences pat s = 0%nat.
Proof.
  intros Hp. induction s as [|b s IH]; intros Hs.
  - simpl. destruct (startsWith pat "") eqn:E; [|done].
    by rewrite (startsWith_mem _ _ _ E Hp) in Hs.
  - simpl. destruct (startsWith pat (String b s)) eqn:E.
    + by rewrite (startsWith_mem _ _ _ E Hp) in Hs.
    + simpl in Hs. apply orb_false_elim in Hs as [_ Hs]. by rewrite IH.
Qed.

Lemma occurrences_suffix pat l s :
  occurrences pat (l +:+ s) = 0%nat → occurrences pat s = 0%nat.
Proof.
  induction l as [|c l IH]; [done|].
  rewrite str_app_cons. simpl. intros H. apply IH. lia.
Qed.

Lemma occurrences_prefix pat s r :
  occurrences pat (s +:+ r) = 0%nat → occurrences pat s = 0%nat.
Proof.
  induction s as [|c s IH].
  - rewrite str_app_nil_l. simpl. destruct (startsWith pat "") eqn:E; [|done].
    intros H. apply (startsWith_app_l _ _ r) in E. rewrite str_app_nil_l in E.
    destruct r; simpl in H; rewrite E in H; lia.
  - rewrite str_app_cons. simpl. destruct (startsWith pat (String c s)) eqn:E.
    + apply (startsWith_app_l _ _ r) in E. rewrite str_app_cons in E. rewrite E. lia.
    + intros H. rewrite IH; [done|].
      destruct (startsWith pat (String c (s +:+ r))); lia.
Qed.

Lemma occurrences_infix pat l s r :
  occurrences pat (l +:+ s +:+ r) = 0%nat → occurrences pat s = 0%nat.
Proof. intros H%occurrences_suffix. by apply occurrences_prefix in H. Qed.

Lemma indexOf_from_bound s pat i :
  indexOf_from s pat i = -1 ∨ i ≤ indexOf_from s pat i.
Proof.
  revert i. induction s as [|c s IH]; intros i; simpl.
  - destruct (startsWith pat ""); lia.
  - destruct (startsWith pat (String c s)); [lia|].
    destruct (IH (i + 1)); lia.
Qed.

Lemma indexOf_from_none s pat i :
  0 ≤ i → indexOf_from s pat i = -1 ↔ occurrences pat s = 0%nat.
Proof.
  revert i. induction s as [|c s IH]; intros i Hi; simpl.
  - destruct (startsWith pat ""); split; (lia || done).
  - destruct (startsWith pat (String c s)).
    + split; lia.
    + rewrite IH by lia. simpl. done.
Qed.

Lemma indexOf_none s pat : indexOf s pat = -1 ↔ occurrences pat s = 0%nat.
Proof. by apply indexOf_from_none. Qed.

Lemma includes_occurrences s pat :
  includes s pat = negb (occurrences pat s =? 0)%nat.
Proof.
  unfold includes, truthyZ, bitnot.
  destruct (Nat.eqb_spec (occurrences pat s) 0) as [H|H].
  - apply indexOf_none in H. rewrite H. reflexivity.
  - assert (indexOf s pat ≠ -1) by (by rewrite indexOf_none).
    simpl. rewrite negb_true_iff. apply Z.eqb_neq.
    unfold Z.lnot. lia.
Qed.

Lemma indexOf_test s pat : (indexOf s pat =? -1) = negb (includes s pat).
Proof.
  rewrite includes_occurrences, negb_involutive.
  destruct (Nat.eqb_spec (occurrences pat s) 0) as [H|H].
  - apply indexOf_none in H. by rewrite H.
  - apply Z.eqb_neq. by rewrite indexOf_none.
Qed.

Lemma occurrences_char c s :
  (occurrences (String c "") s =? 0)%nat = negb (mem_char c s).
Proof.
  induction s as [|a s IH]; [reflexivity|].
  simpl. destruct (Ascii.eqb c a); simpl; [done|]. apply IH.
Qed.

Lemma includes_char s c : includes s (String c "") = mem_char c s.
Proof. by rewrite includes_occurrences, occurrences_char, negb_involutive. Qed.

End StringFacts.
Section TrimFacts.
Import JsString Chars.

Lemma ws_len_blank s k : ws_len s = S k → blank_prefix (S k) s = true.
Proof.
  unfold ws_len, byteAt.
  destruct s as [|a [|b [|c s]]]; simpl;
    repeat match goal with
           | |- context [if ?b then _ else _] => destruct b eqn:?
           end;
    intros [= <-]; simpl; unfold blank; rewrite ?andb_true_r; try reflexivity;
    repeat rewrite ?andb_true_iff, ?orb_true_iff, ?andb_false_iff, ?orb_false_iff,
      ?N.leb_le, ?N.leb_gt, ?N.eqb_eq, ?N.eqb_neq in *; lia.
Qed.

Lemma blank_prefix_tail k c s :
  blank_prefix (S k) (String c s) = true → blank c = true ∧ blank_prefix k s = true.
Proof. simpl. apply andb_prop. Qed.

(** [trimStart] removes a prefix made of blank bytes. *)
Lemma trimStart_go_split skip s :
  blank_prefix skip s = true →
  ∃ l, s = l +:+ trimStart_go skip s ∧ all_blank l = true.
Proof.
  revert skip. induction s as [|c s IH]; intros skip Hskip.
  { exists "". by destruct skip. }
  destruct skip as [|k]; simpl.
  - destruct (ws_len (String c s)) as [|k] eqn:Hws.
    + by exists "".
    + apply ws_len_blank, blank_prefix_tail in Hws as [Hc Hk].
      destruct (IH k Hk) as (l & Hl & Hb).
      exists (String c l). rewrite str_app_cons, <- Hl. simpl. by rewrite Hc, Hb.
  - apply blank_prefix_tail in Hskip as [Hc Hk].
    destruct (IH k Hk) as (l & Hl & Hb).
    exists (String c l). rewrite str_app_cons, <- Hl. simpl. by rewrite Hc, Hb.
Qed.

Lemma trimStart_split s :
  ∃ l, s = l +:+ trimStart s ∧ all_blank l = true.
Proof. by apply trimStart_go_split. Qed.

(** [trimEnd] removes a suffix made of blank bytes. *)
Lemma trimEnd_split s :
  ∃ r, s = trimEnd s +:+ r ∧ all_blank r = true.
Proof.
  induction s as [|c s (r & Hr & Hb)]; [by exists ""|].
  simpl. destruct (trimStart_split (String c s)) as (l & Hl & Hlb).
  change (trimStart_go 0 (String c s)) with (trimStart (String c s)).
  destruct (trimStart (String c s)) as [|d t].
  - exists (String c s). rewrite str_app_nil_r in Hl. by subst l.
  - exists r. by rewrite str_app_cons, <- Hr.
Qed.

Lemma trim_split s :
  ∃ l r, s = l +:+ trim s +:+ r ∧ all_blank l = true ∧ all_blank r = true.
Proof.
  destruct (trimStart_split s) as (l & Hl & Hlb).
  destruct (trimEnd_split (trimStart s)) as (r & Hr & Hrb).
  exists l, r. unfold trim. by rewrite <- Hr.
Qed.

Lemma mem_char_blank c s :
  blank c = false → all_blank s = true → mem_char c s = false.
Proof.
  intros Hc. induction s as [|a s IH]; [done|].
  simpl. intros [Ha Hs]%andb_prop. rewrite (IH Hs), orb_false_r.
  destruct (Ascii.eqb_spec c a) as [->|]; congruence.
Qed.

(** Trimming keeps every visible character. *)
Lemma mem_char_trim c s : blank c = false → mem_char c (trim s) = mem_char c s.
Proof.
  intros Hc. destruct (trim_split s) as (l & r & Hs & Hl & Hr).
  rewrite Hs at 2. rewrite !mem_char_app.
  by rewrite (mem_char_blank c l), (mem_char_blank c r), orb_false_r.
Qed.

Lemma occurrences_trim pat s :
  occurrences pat s = 0%nat → occurrences pat (trim s) = 0%nat.
Proof.
  destruct (trim_split s) as (l & r & Hs & _). rewrite Hs at 1.
  apply occurrences_infix.
Qed.

End TrimFacts.
Section UrlFacts.
Import JsString Chars Steps GraphStream.

Lemma hex_digit_mem n : mem_char (Crypto.hex_digit n) hex_digits = true.
Proof.
  unfold Crypto.hex_digit. destruct (Z.land n 15) as [|p|p]; try reflexivity.
  do 4 (destruct p as [p|p|]; try reflexivity).
Qed.

Lemma hex_over bs : over hex_digits (Crypto.hex bs) = true.
Proof.
  induction bs as [|b bs IH]; [reflexivity|].
  cbn [Crypto.hex over]. by rewrite !hex_digit_mem, IH.
Qed.

Lemma over_mem alphabet s c :
  over alphabet s = true → mem_char c alphabet = false → mem_char c s = false.
Proof.
  intros Hs Hc. induction s as [|a s IH]; [done|].
  simpl in *. apply andb_prop in Hs as [Ha Hs]. rewrite (IH Hs), orb_false_r.
  destruct (Ascii.eqb_spec c a) as [->|]; congruence.
Qed.

(** The proof parameter never holds the text [access_token=]: it has
    no letter [k]. *)
Lemma proof_param_clean k x : occurrences "access_token=" (proof_param k x) = 0%nat.
Proof.
  apply (occurrences_absent _ _ "k"%char); [reflexivity|].
  unfold proof_param, Crypto.hmac_sha256_hex. rewrite mem_char_app.
  by rewrite (over_mem hex_digits _ _ (hex_over _)).
Qed.

Lemma after_prefix_startsWith pat s :
  startsWith pat s = match after_prefix pat s with Some _ => true | None => false end.
Proof.
  revert s. induction pat as [|a pat IH]; intros [|b s]; simpl; try done.
  destruct (Ascii.eqb a b); simpl; [apply IH|done].
Qed.

Lemma exec_access_token_none s :
  exec_access_token s = None ↔ occurrences "access_token=" s = 0%nat.
Proof.
  induction s as [|c s IH].
  - split; reflexivity.
  - cbn [exec_access_token occurrences].
    rewrite (after_prefix_startsWith "access_token=" (String c s)).
    destruct (after_prefix "access_token=" (String c s)).
    + split; [done|lia].
    + rewrite IH. simpl. done.
Qed.

Lemma rooted_occurrences pat url :
  pat ≠ "" → mem_char "/" pat = false →
  occurrences pat (rooted url) = occurrences pat (trim url).
Proof.
  intros Hne Hc. unfold rooted.
  destruct (negb _ && negb _); [|done].
  change ("/" +:+ trim url) with ("" +:+ String "/" (trim url)).
  rewrite occurrences_sep by done. simpl. by rewrite startsWith_nil_r.
Qed.

Lemma rooted_mem c url :
  c ≠ "/"%char → blank c = false → mem_char c (rooted url) = mem_char c url.
Proof.
  intros Hc Hb. rewrite <- (mem_char_trim c url Hb). unfold rooted.
  destruct (negb _ && negb _); [|done].
  change ("/" +:+ trim url) with (String "/" (trim url)). simpl.
  by destruct (Ascii.eqb_spec c "/").
Qed.

Lemma occurrences_none_trim pat url :
  indexOf url pat = -1 → occurrences pat (trim url) = 0%nat.
Proof. rewrite indexOf_none. apply occurrences_trim. Qed.

End UrlFacts.
Section CleanUrlFacts.
Import JsString Chars Steps GraphStream.

(** [cleanUrl] read step by step. *)
Lemma cleanUrl_steps g url :
  cleanUrl g url =
    let with_token :=
      if truthy_str (getAccessToken g) && negb (includes (rooted url) "access_token=")
      then add_param (rooted url) ("access_token=" +:+ text (getAccessToken g))
      else rooted url in
    if truthy_str (signing_token g url) && truthy_str (getAppSecret g)
       && negb (includes with_token "appsecret_proof")
    then add_param with_token
           (proof_param (text (getAppSecret g)) (text (signing_token g url)))
    else with_token.
Proof.
  unfold cleanUrl, rooted, signing_token, proof_param.
  rewrite !indexOf_test. reflexivity.
Qed.

Lemma includes_rooted url pat :
  pat ≠ "" → mem_char "/" pat = false →
  indexOf url pat = -1 → includes (rooted url) pat = false.
Proof.
  intros Hne Hc Hurl. rewrite includes_occurrences, rooted_occurrences by done.
  by rewrite occurrences_none_trim.
Qed.

Lemma includes_rooted_query url : includes (rooted url) "?" = mem_char "?" url.
Proof. rewrite includes_char. by apply rooted_mem. Qed.

(** A path that carries a token keeps it: no token is added, and the
    proof, when one is added, signs the carried token. *)
Lemma cleanUrl_embedded g url X :
  exec_access_token (trim url) = Some X →
  cleanUrl g url =
    if truthy_str (Some X) && truthy_str (getAppSecret g)
       && negb (includes (rooted url) "appsecret_proof")
    then add_param (rooted url) (proof_param (text (getAppSecret g)) X)
    else rooted url.
Proof.
  intros HX. rewrite cleanUrl_steps. unfold signing_token. rewrite HX.
  assert (includes (rooted url) "access_token=" = true) as ->.
  { rewrite includes_occurrences, rooted_occurrences by done.
    apply negb_true_iff, Nat.eqb_neq. rewrite <- exec_access_token_none.
    by rewrite HX. }
  by rewrite andb_false_r.
Qed.

Lemma truthy_str_some s : s ≠ "" → truthy_str (Some s) = true.
Proof. intros H. simpl. by apply negb_true_iff, String.eqb_neq. Qed.

Lemma occurrences_token_param tok :
  occurrences "access_token=" tok = 0%nat →
  occurrences "access_token=" ("access_token=" +:+ tok) = 1%nat.
Proof.
  intros H. rewrite !str_app_cons, str_app_nil_l. simpl. by rewrite H.
Qed.

End CleanUrlFacts.
Section TokenOnce.
Import JsString Chars Steps GraphStream.

Lemma add_param_query url piece : includes (add_param url piece) "?" = true.
Proof.
  unfold add_param. rewrite !includes_char, !mem_char_app.
  destruct (mem_char "?" url); reflexivity.
Qed.

Lemma add_param_occurrences pat url piece :
  pat ≠ "" → mem_char "?" pat = false → mem_char "&" pat = false →
  occurrences pat (add_param url piece) =
  (occurrences pat url + occurrences pat piece)%nat.
Proof.
  intros Hne Hq Ha. unfold add_param. rewrite str_app_assoc.
  destruct (includes url "?");
    [change ("&" +:+ piece) with (String "&" piece)
    |change ("?" +:+ piece) with (String "?" piece)];
    by rewrite occurrences_sep.
Qed.

Lemma signing_token_plain g url :
  indexOf url "access_token=" = -1 → signing_token g url = getAccessToken g.
Proof.
  intros H%occurrences_none_trim. apply exec_access_token_none in H.
  unfold signing_token. by rewrite H.
Qed.

Lemma cleanUrl_adds_token g p tok :
  getAccessToken g = Some tok → tok ≠ "" →
  indexOf p "access_token=" = -1 →
  ∃ rest,
    cleanUrl g p =
      (rooted p +:+ (if mem_char "?" p then "&" else "?"))
      +:+ "access_token=" +:+ tok +:+ rest
    ∧ (rest = "" ∨ ∃ k x, rest = "&" +:+ proof_param k x).
Proof.
  intros Htok Hne Hp. rewrite cleanUrl_steps, (signing_token_plain g p Hp), Htok.
  rewrite truthy_str_some, includes_rooted by done. cbn [negb andb text].
  destruct (truthy_str (getAppSecret g) && negb _).
  - exists ("&" +:+ proof_param (text (getAppSecret g)) tok). split; [|eauto].
    unfold add_param at 1. rewrite add_param_query.
    unfold add_param. rewrite includes_rooted_query. by rewrite !str_app_assoc.
  - exists "". split; [|by left].
    unfold add_param. by rewrite includes_rooted_query, str_app_nil_r.
Qed.

Lemma token_url_occurrences base c tok rest :
  mem_char c "access_token=" = false →
  occurrences "access_token=" base = 0%nat →
  occurrences "access_token=" tok = 0%nat →
  rest = "" ∨ (∃ k x, rest = "&" +:+ proof_param k x) →
  occurrences "access_token="
    ((base +:+ String c "") +:+ "access_token=" +:+ tok +:+ rest) = 1%nat.
Proof.
  intros Hc Hbase Htok Hrest.
  rewrite str_app_assoc. change (String c "" +:+ ?t) with (String c t).
  rewrite occurrences_sep, Hbase by done.
  destruct Hrest as [->|(k & x & ->)].
  - by rewrite str_app_nil_r, occurrences_token_param.
  - change ("&" +:+ proof_param k x) with (String "&" (proof_param k x)).
    rewrite <- str_app_assoc, occurrences_sep by done.
    by rewrite occurrences_token_param, proof_param_clean.
Qed.

End TokenOnce.
Section EmbeddedToken.
Import JsString Chars Steps GraphStream.

Lemma startsWith_long pat s t :
  (String.length pat ≤ String.length s)%nat →
  startsWith pat (s +:+ t) = startsWith pat s.
Proof.
  revert s. induction pat as [|a pat IH]; intros [|b s] Hlen; simpl in *; try done; try lia.
  rewrite ?str_app_cons. simpl. rewrite IH by lia. done.
Qed.

Lemma after_prefix_self pat t : after_prefix pat (pat +:+ t) = Some t.
Proof.
  induction pat as [|a pat IH]; [by destruct t|].
  rewrite str_app_cons. simpl. by rewrite Ascii.eqb_refl.
Qed.

Lemma until_amp_stop X rest :
  mem_char "&" X = false → rest = "" ∨ (∃ r, rest = "&" +:+ r) →
  until_amp (X +:+ rest) = X.
Proof.
  intros HX Hrest. induction X as [|c X IH].
  - rewrite str_app_nil_l. by destruct Hrest as [->|[r ->]].
  - cbn [mem_char] in HX. apply orb_false_elim in HX as [Hc HX].
    rewrite str_app_cons. cbn [until_amp]. rewrite Ascii.eqb_sym, Hc. by rewrite IH.
Qed.

Lemma exec_access_token_unfold url :
  exec_access_token url =
    match after_prefix "access_token=" url with
    | Some rest => Some (until_amp rest)
    | None => match url with
              | EmptyString => None
              | String _ url' => exec_access_token url'
              end
    end.
Proof. by destruct url. Qed.

(** X5.  What the pattern captures: in a path that reads [pre], then
    [access_token=], then [X] free of ampersands, then nothing or an
    ampersand and more, with no earlier match, the captured token is
    [X]. *)
Lemma exec_access_token_found pre X rest :
  occurrences "access_token=" (pre +:+ "access_token") = 0%nat →
  mem_char "&" X = false → rest = "" ∨ (∃ r, rest = "&" +:+ r) →
  exec_access_token (pre +:+ "access_token=" +:+ X +:+ rest) = Some X.
Proof.
  intros Hpre HX Hrest. induction pre as [|c pre IH].
  - by rewrite str_app_nil_l, exec_access_token_unfold, after_prefix_self, until_amp_stop.
  - rewrite str_app_cons in Hpre. cbn [occurrences] in Hpre.
    destruct (startsWith "access_token=" (String c (pre +:+ "access_token"))) eqn:Hs;
      [lia|].
    rewrite str_app_cons, exec_access_token_unfold.
    assert (startsWith "access_token=" (String c (pre +:+ "access_token=" +:+ X +:+ rest))
            = false) as Hs'.
    { change ("access_token=" +:+ X +:+ rest)
        with ("access_token" +:+ "=" +:+ X +:+ rest).
      rewrite <- str_app_assoc, <- str_app_cons, startsWith_long;
        [exact Hs|].
      simpl. clear. induction pre; simpl; lia. }
    rewrite after_prefix_startsWith in Hs'.
    destruct (after_prefix _ _); [done|].
    apply IH. lia.
Qed.

End EmbeddedToken.

Section PreparedUrl.
Import JsString Chars Steps GraphStream.

(** The rooted path starts with a slash or with [http]. *)
Lemma rooted_shape p :
  (∃ x, rooted p = String "/" x) ∨ startsWith "http" (rooted p) = true.
Proof.
  unfold rooted. set (u := trim p).
  destruct (String.eqb_spec (charAt u 0) "/") as [Hc|Hc]; cbn [negb andb].
  - left. destruct u as [|c u]; [done|]. injection Hc as ->. by exists u.
  - destruct (String.eqb_spec (substr u 0 4) "http") as [Hh|Hh]; cbn [negb].
    + right. destruct u as [|a [|b [|c [|d u]]]]; try done.
      injection Hh as -> -> -> ->. reflexivity.
    + left. by exists u.
Qed.

Lemma substring_none s : String.substring 0 0 s = "".
Proof. by destruct s. Qed.

Lemma substr_http s t :
  startsWith "http" s = true → String.eqb (substr (s +:+ t) 0 4) "http" = true.
Proof.
  destruct s as [|a [|b [|c [|d s]]]]; cbn [startsWith];
    rewrite ?andb_true_iff, ?Ascii.eqb_eq; try by intuition discriminate.
  intros (<- & <- & <- & <- & _). unfold substr.
  rewrite !str_app_cons. cbn [String.substring]. by rewrite substring_none.
Qed.

Lemma occurrences_foreign_head pat c s :
  pat ≠ "" → mem_char c pat = false →
  occurrences pat (String c s) = occurrences pat s.
Proof.
  intros Hne Hc. change (String c s) with ("" +:+ String c s).
  rewrite occurrences_sep by done. cbn [occurrences]. by rewrite startsWith_nil_r.
Qed.

(** The host and version prefix adds no token text of its own. *)
Lemma prepareUrl_occurrences g p tok :
  getAccessToken g = Some tok → tok ≠ "" →
  indexOf p "access_token=" = -1 →
  occurrences "access_token=" (prepareUrl g p) =
    ((if String.eqb (substr (cleanUrl g p) 0 4) "http" then 0
      else occurrences "access_token=" (getGraphUrl g)
           + occurrences "access_token=" (getVersion g))
     + occurrences "access_token=" (cleanUrl g p))%nat.
Proof.
  intros Htok Hne Hp. unfold prepareUrl.
  destruct (cleanUrl_adds_token g p tok Htok Hne Hp) as (rest & Hurl & _).
  destruct (rooted_shape p) as [[x Hx]|Hh].
  - assert (∃ y, cleanUrl g p = String "/" y) as [y Hy].
    { rewrite Hurl, Hx. rewrite !str_app_cons. by eexists. }
    rewrite Hy. cbn [substr String.substring String.eqb negb Ascii.eqb Bool.eqb].
    change ("/v" +:+ getVersion g +:+ String "/" y)
      with (String "/" (String "v" (getVersion g +:+ String "/" y))).
    rewrite occurrences_sep, !occurrences_foreign_head, occurrences_sep by done.
    lia.
  - rewrite Hurl, !str_app_assoc, substr_http by done. reflexivity.
Qed.

End PreparedUrl.

(** * The claims about [cleanUrl] *)

Section UrlClaims.
Import JsString Chars Steps GraphStream.

(** C3, as amended.  The proof is gated on the signing token, not on
    the client's token: [cleanUrl] returns what it returns for a client
    without app secret, followed by the proof parameter exactly when
    the signing token (the token embedded in the path when there is
    one, the client's otherwise) and the app secret are non-empty and
    the text [appsecret_proof] does not occur yet; the proof is the
    HMAC of the signing token.  In particular a path with an embedded,
    non-empty [access_token=X] gets the proof of [X] when the app
    secret is set and the client's token is unset. *)
Theorem cleanUrl_proof_gate (g : Graph) (url : string) :
  let plain := cleanUrl (setAppSecret None g) url in
  (cleanUrl g url =
     if truthy_str (signing_token g url) && truthy_str (getAppSecret g)
        && negb (includes plain "appsecret_proof")
     then add_param plain
            (proof_param (text (getAppSecret g)) (text (signing_token g url)))
     else plain)
  ∧ (∀ X secret,
       getAccessToken g = None →
       getAppSecret g = Some secret → secret ≠ "" →
       exec_access_token (trim url) = Some X → X ≠ "" →
       indexOf url "appsecret_proof" = -1 →
       cleanUrl g url =
         (rooted url +:+ (if mem_char "?" url then "&" else "?"))
         +:+ "appsecret_proof=" +:+ Crypto.hmac_sha256_hex secret X).
Proof.
  split.
  - rewrite (cleanUrl_steps g), (cleanUrl_steps (setAppSecret None g)).
    change (signing_token (setAppSecret None g) url) with (signing_token g url).
    change (getAccessToken (setAppSecret None g)) with (getAccessToken g).
    change (getAppSecret (setAppSecret None g)) with (@None string).
    cbn [truthy_str]. by rewrite andb_false_r.
  - intros X secret Htok Hs Hsne HX HXne Hproof.
    rewrite (cleanUrl_steps g). unfold signing_token. rewrite HX, Htok, Hs.
    rewrite !truthy_str_some by done. cbn [truthy_str andb text].
    rewrite includes_rooted by done. cbn [negb andb].
    unfold add_param, proof_param. by rewrite includes_rooted_query.
Qed.

(** C4.  A path in which the pattern finds [access_token=X] (see
    [exec_access_token_found]) with [X] non-empty, for a client with an
    app secret, when the text [appsecret_proof] does not occur in the
    path: the built URL is the path (trimmed, with its leading slash)
    followed by [?] or [&] and [appsecret_proof=] with the hex
    HMAC-SHA256 of [X] under the app secret. *)
Theorem cleanUrl_proof_of_embedded_token (g : Graph) (url X secret : string) :
  exec_access_token (trim url) = Some X → X ≠ "" →
  getAppSecret g = Some secret → secret ≠ "" →
  indexOf url "appsecret_proof" = -1 →
  cleanUrl g url =
    (rooted url +:+ (if mem_char "?" url then "&" else "?"))
    +:+ "appsecret_proof=" +:+ Crypto.hmac_sha256_hex secret X.
Proof.
  intros HX HXne Hs Hsne Hproof.
  rewrite (cleanUrl_embedded g url X HX), Hs, !truthy_str_some by done.
  rewrite includes_rooted by done.
  unfold add_param, proof_param. by rewrite includes_rooted_query.
Qed.

(** C7, as amended.  For a path without the text [access_token=] and a
    client token that is non-empty and does not itself contain the text
    [access_token=], the built URL is the path (trimmed, with its
    leading slash), then [?] when the path has no [?] and [&] when it
    has one, then [access_token=] and the token, then nothing or the
    proof parameter; the text [access_token=] occurs in it exactly
    once. *)
Theorem cleanUrl_appends_token_once (g : Graph) (p tok : string) :
  getAccessToken g = Some tok → tok ≠ "" →
  indexOf p "access_token=" = -1 →
  indexOf tok "access_token=" = -1 →
  ∃ rest,
    cleanUrl g p =
      (rooted p +:+ (if mem_char "?" p then "&" else "?"))
      +:+ "access_token=" +:+ tok +:+ rest
    ∧ (rest = "" ∨ ∃ proof, rest = "&appsecret_proof=" +:+ proof)
    ∧ occurrences "access_token=" (cleanUrl g p) = 1%nat.
Proof.
  intros Htok Hne Hp Ht.
  destruct (cleanUrl_adds_token g p tok Htok Hne Hp) as (rest & Hurl & Hrest).
  exists rest. split; [done|]. split.
  - destruct Hrest as [->|(k & x & ->)]; [by left|right].
    by exists (Crypto.hmac_sha256_hex k x).
  - rewrite Hurl. apply indexOf_none in Ht.
    assert (occurrences "access_token=" (rooted p) = 0%nat) as Hbase.
    { rewrite rooted_occurrences by done. by apply occurrences_none_trim. }
    destruct (mem_char "?" p); by apply token_url_occurrences.
Qed.

End UrlClaims.

(** * The claims about [end] and the transport handlers *)

Section EndFacts.
Import JsString Chars Steps GraphStream.
Context {P : Parsers}.

Lemma includes_braces s :
  includes s "{" && includes s "}" = mem_char "{" s && mem_char "}" s.
Proof. by rewrite !includes_char. Qed.

Lemma end_try_string s :
  end_try (VString s) =
    if mem_char "{" s && mem_char "}" s
    then ([CallJSONParse s], JSON_parse s)
    else ([CallUrlParse (query_text s)], url_parse_query (query_text s)).
Proof. unfold end_try. by rewrite includes_braces. Qed.

(** [end] on a string body, by what its [try] block did. *)
Lemma end_trace_string s :
  end_trace (VString s) =
    match end_try (VString s) with
    | (calls, inl v) =>
        (calls,
         Callback (if truthy (js_and v (member v "error")) then member v "error" else VNull) v)
    | (calls, inr e) => (calls, Callback (parse_error e) VNull)
    end.
Proof.
  unfold end_trace. cbn [truthy negb].
  destruct (end_try (VString s)) as [calls [v|e]]; reflexivity.
Qed.

(** [end] on a body that is already a truthy value. *)
Lemma end_trace_value body :
  truthy body = true → (∀ s, body ≠ VString s) →
  end_trace body =
    ([], Callback (if truthy (member body "error") then member body "error" else VNull) body).
Proof.
  intros Ht Hs. unfold end_trace.
  assert (match body with VString _ => VNull | _ => body end = body) as ->.
  { destruct body; try done. by destruct (Hs s). }
  rewrite Ht. cbn [negb truthy andb]. unfold js_and. by rewrite Ht.
Qed.

Lemma parse_error_fields e :
  member (parse_error e) "message" = VString "Error parsing json"
  ∧ member (parse_error e) "exception" = e.
Proof. split; reflexivity. Qed.

Lemma end_image_marker res :
  end_ (image_marker res) = Callback VNull (image_marker res).
Proof.
  unfold end_. rewrite end_trace_value; [|reflexivity|discriminate].
  reflexivity.
Qed.

End EndFacts.
Section EndClaims.
Import JsString Chars Steps GraphStream.
Context {P : Parsers}.

(** C1, as amended.  [end] hands the callback an error that is [null]
    or truthy.  A truthy error is either the parse error, and then the
    result is the falsy value [json] started from ([null] for a string
    body), or the truthy [error] member of the normalised body, and
    then the result is that whole body, delivered together with the
    error. *)
Theorem end_error_or_result (body : value) :
  let c := end_ body in
  (truthy (cb_err c) = false → cb_err c = VNull)
  ∧ (truthy (cb_err c) = true →
       (∃ e, cb_err c = parse_error e ∧ truthy (cb_res c) = false)
       ∨ (cb_err c = member (cb_res c) "error" ∧ truthy (cb_res c) = true))
  ∧ (∀ s e, body = VString s → snd (end_try body) = inr e →
       c = Callback (parse_error e) VNull).
Proof.
  unfold end_, end_trace.
  set (json := match body with VString _ => VNull | _ => body end).
  destruct (truthy json) eqn:Hjson; cbn [negb].
  - cbn [truthy negb andb snd cb_err cb_res]. unfold js_and. rewrite Hjson.
    destruct (truthy (member json "error")) eqn:Herr; cbn [snd cb_err cb_res].
    + split; [congruence|]. split; [by right|].
      intros s e ->. by subst json.
    + split; [done|]. split; [done|].
      intros s e ->. by subst json.
  - destruct (end_try body) as [calls [v|e]]; cbn [snd cb_err cb_res truthy negb andb].
    + unfold js_and.
      destruct (truthy v) eqn:Hv; [destruct (truthy (member v "error")) eqn:Herr|];
        cbn [snd cb_err cb_res]; rewrite ?Hv.
      * split; [congruence|]. split; [by right|]. by intros s e _ [=].
      * split; [done|]. split; [done|]. by intros s e _ [=].
      * split; [done|]. split; [done|]. by intros s e _ [=].
    + split; [done|]. split.
      * intros _. left. by exists e.
      * intros s e' Hs [= ->]. subst json. by rewrite Hs.
Qed.

(** C8.  On a string body [end] calls the JSON parser exactly when the
    body holds both an opening and a closing brace, and then on the
    body itself; when the parser throws, [end] still returns, and the
    callback gets the error with message [Error parsing json] and the
    exception thrown, and a [null] result. *)
Theorem end_parses_json_iff_braces (s : string) :
  (∀ t, In (CallJSONParse t) (fst (end_trace (VString s))) ↔
        t = s ∧ mem_char "{" s = true ∧ mem_char "}" s = true)
  ∧ (∀ e, mem_char "{" s = true → mem_char "}" s = true →
          JSON_parse s = inr e →
          member (cb_err (end_ (VString s))) "message" = VString "Error parsing json"
          ∧ member (cb_err (end_ (VString s))) "exception" = e
          ∧ cb_res (end_ (VString s)) = VNull).
Proof.
  unfold end_. rewrite end_trace_string, end_try_string. split.
  - intros t. destruct (mem_char "{" s), (mem_char "}" s); cbn [andb];
      [destruct (JSON_parse s)|destruct (url_parse_query _)..]; cbn [fst In];
      (split; [intros [H|[]]; inversion H; auto
              |intros (-> & H1 & H2); try discriminate; by left]).
  - intros e -> -> ->. cbn [andb snd cb_err cb_res]. by repeat split.
Qed.

(** C9.  On a string body that lacks a brace of the pair, [end] calls
    the query parser, once, on the body made to start with [?]; a body
    without [=] is passed as [?data=] followed by the whole body, and
    the mapping the parser returns is the result.  With a parser that
    reads [?data=] and the body as the mapping of [data] to the body,
    the callback gets no error and that mapping. *)
Theorem end_query_payload (s : string) :
  mem_char "{" s && mem_char "}" s = false →
  fst (end_trace (VString s)) = [CallUrlParse (query_text s)]
  ∧ (mem_char "=" s = false → query_text s = "?data=" +:+ s)
  ∧ (∀ v, url_parse_query (query_text s) = inl v → cb_res (end_ (VString s)) = v)
  ∧ (mem_char "=" s = false →
     url_parse_query ("?data=" +:+ s) = inl (VObject (<["data" := VString s]> ∅)) →
     end_ (VString s) = Callback VNull (VObject (<["data" := VString s]> ∅))).
Proof.
  intros Hshape. unfold end_. rewrite end_trace_string, end_try_string, Hshape.
  assert (mem_char "=" s = false → query_text s = "?data=" +:+ s) as Hdata.
  { intros Heq. unfold query_text. by rewrite includes_char, Heq. }
  split; [by destruct (url_parse_query _)|]. split; [done|]. split.
  - by intros v ->.
  - intros Heq Hparse. by rewrite (Hdata Heq), Hparse.
Qed.

(** C5, as amended.  When the transport answers without error, [get]
    delivers the image marker, with no error, if the response has a
    content type that contains [image], and runs [end] on the body if
    it has a content type without it; [post] has no image test and
    runs [end] on the body whatever the content type. *)
Theorem image_marker_on_get_only (err : value) (res : response) (body : value) :
  truthy err = false →
  (∀ ct, headers res !! "content-type" = Some ct →
     handle GET (Completed err res body) =
       Returned [if includes ct "image"
                 then Callback VNull (image_marker res) else end_ body])
  ∧ member (image_marker res) "image" = VBool true
  ∧ member (image_marker res) "location" = value_of_str (headers res !! "location")
  ∧ handle POST (Completed err res body) = Returned [end_ body].
Proof.
  intros Herr. split; [|split; [reflexivity|split; [reflexivity|]]].
  - intros ct Hct. cbn [handle]. unfold get_callback. rewrite Herr, Hct.
    destruct (includes ct "image"); [|done]. by rewrite end_image_marker.
  - cbn [handle]. unfold post_callback. by rewrite Herr.
Qed.

(** C2, where the code fails it.  A successful answer to a [get] whose
    response has no content type header makes the handler throw before
    it reaches the callback: the callback is not invoked. *)
Theorem get_without_content_type_never_calls_back (res : response) (body : value) :
  headers res !! "content-type" = None →
  handle GET (Completed VNull res body) = Threw (VError "TypeError")
  ∧ invocations (handle GET (Completed VNull res body)) = [].
Proof.
  intros Hct. cbn [handle]. unfold get_callback. cbn [truthy]. by rewrite Hct.
Qed.

(** X13.  Every other handler run invokes the callback exactly once. *)
Lemma handle_calls_back_once (m : method) (ev : transport_event) :
  (∀ err res body, ev = Completed err res body → m = GET → truthy err = false →
     is_Some (headers res !! "content-type")) →
  ∃ c, handle m ev = Returned [c].
Proof.
  intros Hct. destruct ev as [err res body|err]; [|destruct m; by eexists].
  destruct m; cbn [handle]; unfold get_callback, post_callback.
  - destruct (truthy err) eqn:Herr; [by eexists|].
    destruct (Hct err res body eq_refl eq_refl Herr) as [ct ->]. by eexists.
  - destruct (truthy err); by eexists.
Qed.

(** X14.  A transport that reports one failure both ways, through the
    function and through the [error] event, gets the callback invoked
    twice. *)
Lemma failure_reported_twice_calls_back_twice (m : method) (err : value) (res : response) :
  truthy err = true →
  invocations (handle m (Completed err res VUndefined))
  ++ invocations (handle m (ErrorEmitted err)) =
  [Callback (transport_error err) VNull; Callback (transport_error err) VNull].
Proof.
  intros Herr. destruct m; cbn [handle]; unfold get_callback, post_callback, on_error;
    by rewrite Herr.
Qed.

End EndClaims.
(** * The claims about the request options and the token exchange *)

Section OptionClaims.
Import JsString Chars Steps GraphStream.
Context {Q : Stringifier}.

Lemma options_lookup g m url k :
  options g m url !! k =
    if decide (k = "followRedirect") then Some (VBool false)
    else if decide (k = "uri") then Some (VString (prepareUrl g url))
    else if decide (k = "method") then Some (VString (method_name m))
    else if decide (k = "encoding")
         then Some (js_or (field (own_props (getOptions g)) "encoding") (VString "utf-8"))
    else own_props (getOptions g) !! k.
Proof.
  unfold options. rewrite !lookup_insert.
  repeat case_decide; subst; try done.
Qed.

(** C10, as amended.  Whatever options the client holds, the options
    handed to the transport carry the method of the call, the prepared
    URL and [followRedirect = false]; the encoding is the client's when
    that is truthy and [utf-8] when it is missing or falsy ([null], the
    empty string, [0], [false]); every other option reaches the
    transport as the client holds it, except [body], which [post]
    sets. *)
Theorem request_options_fixed_fields (g : Graph) (m : method) (url : string)
    (postData : value) :
  let o := request_options g m url postData in
  o !! "method" = Some (VString (method_name m))
  ∧ o !! "uri" = Some (VString (prepareUrl g url))
  ∧ o !! "followRedirect" = Some (VBool false)
  ∧ o !! "encoding" =
      Some (if truthy (field (own_props (getOptions g)) "encoding")
            then field (own_props (getOptions g)) "encoding" else VString "utf-8")
  ∧ (∀ k, k ∉ ["method"; "uri"; "followRedirect"; "encoding"; "body"] →
          o !! k = own_props (getOptions g) !! k).
Proof.
  cbn zeta.
  assert (∀ k, k ≠ "body" →
            request_options g m url postData !! k = options g m url !! k) as Hbody.
  { intros k Hk. destruct m; [done|]. cbn [request_options]. by rewrite lookup_insert_ne. }
  repeat split; try (rewrite Hbody by done; by rewrite options_lookup).
  intros k Hk. rewrite !not_elem_of_cons in Hk.
  destruct Hk as (? & ? & ? & ? & ? & _).
  rewrite Hbody, options_lookup by done. by repeat case_decide.
Qed.

End OptionClaims.

Section ExchangeClaims.
Import JsString Chars Steps GraphStream.
Context {P : Parsers} {Q : Stringifier}.

Lemma exchange_params_own_token g params :
  field (Graph.exchange_params g params) "access_token" = field params "access_token".
Proof. unfold Graph.exchange_params, field. by rewrite !lookup_insert_ne. Qed.




End ExchangeClaims.
(** * The statements at concrete inputs *)

Section ConcreteUrls.
Import JsString Chars Steps GraphStream Samples.

(** C3, where the claim as it was stated fails: with an app secret and
    no client token, a path that carries a token does get a proof. *)
Lemma proof_added_without_client_token :
  getAccessToken signed_client = None
  ∧ getAppSecret signed_client = Some "s"
  ∧ exec_access_token (trim "me?access_token=abc") = Some "abc"
  ∧ cleanUrl signed_client "me?access_token=abc" =
    "/me?access_token=abc&appsecret_proof=47d920ed90784dc5eae635bfd0824f612d05f09f9a47f60390de873ad37e546b".
Proof. vm_compute. done. Qed.

Lemma cleanUrl_proof_gate_witness :
  cleanUrl signed_client "me?access_token=abc" =
    (rooted "me?access_token=abc"
     +:+ (if mem_char "?" "me?access_token=abc" then "&" else "?"))
    +:+ "appsecret_proof=" +:+ Crypto.hmac_sha256_hex "s" "abc".
Proof.
  apply (proj2 (cleanUrl_proof_gate signed_client "me?access_token=abc") "abc" "s");
    solve [reflexivity | discriminate].
Defined.

Lemma cleanUrl_proof_of_embedded_token_witness :
  cleanUrl token_client " me/feed?limit=5&access_token=abc&x=1 " =
    (rooted " me/feed?limit=5&access_token=abc&x=1 "
     +:+ (if mem_char "?" " me/feed?limit=5&access_token=abc&x=1 " then "&" else "?"))
    +:+ "appsecret_proof=" +:+ Crypto.hmac_sha256_hex "s" "abc".
Proof.
  apply (cleanUrl_proof_of_embedded_token token_client
           " me/feed?limit=5&access_token=abc&x=1 " "abc" "s");
    solve [reflexivity | discriminate].
Defined.

(** C7, where the claim as it was stated fails: for a token that
    contains the text [access_token=] the built URL holds it twice. *)
Lemma token_text_in_token_occurs_twice :
  indexOf "me" "access_token=" = -1
  ∧ truthy_str (getAccessToken odd_token_client) = true
  ∧ cleanUrl odd_token_client "me" = "/me?access_token=access_token="
  ∧ occurrences "access_token=" (cleanUrl odd_token_client "me") = 2%nat.
Proof. vm_compute. done. Qed.

Lemma cleanUrl_appends_token_once_witness :
  ∃ rest,
    cleanUrl token_client "me?fields=id" =
      (rooted "me?fields=id" +:+ (if mem_char "?" "me?fields=id" then "&" else "?"))
      +:+ "access_token=" +:+ "tok" +:+ rest
    ∧ (rest = "" ∨ ∃ proof, rest = "&appsecret_proof=" +:+ proof)
    ∧ occurrences "access_token=" (cleanUrl token_client "me?fields=id") = 1%nat.
Proof.
  apply (cleanUrl_appends_token_once token_client "me?fields=id" "tok");
    solve [reflexivity | discriminate].
Defined.

End ConcreteUrls.

Section ConcreteResponses.
Import JsString Chars Steps GraphStream Samples.
#[local] Existing Instance Reference.parsers.
#[local] Existing Instance Reference.stringifier.

(** C1, where the claim as it was stated fails: a body that reports a
    remote error reaches the callback as the result, next to the
    error. *)
Lemma remote_error_comes_with_result :
  end_ remote_error_body = Callback remote_error remote_error_body
  ∧ nullish (cb_err (end_ remote_error_body)) = false
  ∧ nullish (cb_res (end_ remote_error_body)) = false.
Proof. vm_compute. done. Qed.

Lemma end_error_or_result_witness :
  (∃ e, cb_err (end_ remote_error_body) = parse_error e
        ∧ truthy (cb_res (end_ remote_error_body)) = false)
  ∨ (cb_err (end_ remote_error_body) = member (cb_res (end_ remote_error_body)) "error"
     ∧ truthy (cb_res (end_ remote_error_body)) = true).
Proof.
  apply (proj1 (proj2 (end_error_or_result remote_error_body))). reflexivity.
Defined.

Lemma end_parses_json_iff_braces_witness :
  member (cb_err (end_ (VString "{bad}"))) "message" = VString "Error parsing json"
  ∧ member (cb_err (end_ (VString "{bad}"))) "exception" = VError "SyntaxError"
  ∧ cb_res (end_ (VString "{bad}")) = VNull.
Proof.
  apply (proj2 (end_parses_json_iff_braces "{bad}") (VError "SyntaxError"));
    reflexivity.
Defined.

Lemma end_query_payload_witness :
  end_ (VString "true") = Callback VNull (VObject (<["data" := VString "true"]> ∅)).
Proof.
  apply (proj2 (proj2 (proj2 (end_query_payload "true" eq_refl)))); reflexivity.
Defined.

(** C5, where the claim as it was stated fails: [post] hands an image
    response to [end] like any other, and the body is the result. *)
Lemma post_keeps_body_of_image_response :
  includes "image/jpeg" "image" = true
  ∧ headers image_response !! "content-type" = Some "image/jpeg"
  ∧ handle POST (Completed VNull image_response node_body) =
    Returned [Callback VNull node_body]
  ∧ node_body ≠ image_marker image_response.
Proof. split; [|split; [|split]]; [vm_compute; done..|]. by vm_compute. Qed.

Lemma image_marker_on_get_only_witness :
  handle GET (Completed VNull image_response (VString "ignored")) =
    Returned [if includes "image/jpeg" "image"
              then Callback VNull (image_marker image_response)
              else end_ (VString "ignored")].
Proof.
  apply (proj1 (image_marker_on_get_only VNull image_response (VString "ignored") eq_refl)).
  reflexivity.
Defined.

Lemma get_without_content_type_never_calls_back_witness :
  handle GET (Completed VNull bare_response node_body) = Threw (VError "TypeError")
  ∧ invocations (handle GET (Completed VNull bare_response node_body)) = [].
Proof.
  apply (get_without_content_type_never_calls_back bare_response node_body).
  reflexivity.
Defined.

(** C10, where the claim as it was stated fails: the client supplies
    the encoding [null] and the transport is handed [utf-8]. *)
Lemma null_encoding_replaced :
  own_props (getOptions buffer_client) !! "encoding" = Some VNull
  ∧ request_options buffer_client GET "me" (VObject ∅) !! "encoding" =
    Some (VString "utf-8").
Proof. vm_compute. done. Qed.

Lemma request_options_fixed_fields_witness :
  request_options buffer_client GET "me" (VObject ∅) !! "timeout" =
  own_props (getOptions buffer_client) !! "timeout".
Proof.
  apply (proj2 (proj2 (proj2 (proj2
           (request_options_fixed_fields buffer_client GET "me" (VObject ∅)))))).
  compute_done.
Defined.



End ConcreteResponses.
(** * Further properties of the URL builder *)

Section UrlShape.
Import JsString Chars Steps GraphStream.

Lemma add_param_suffix url piece :
  add_param url piece = url +:+ (if includes url "?" then "&" else "?") +:+ piece.
Proof. unfold add_param. by rewrite str_app_assoc. Qed.

Lemma substr_http_iff s :
  String.eqb (substr s 0 4) "http" = startsWith "http" s.
Proof.
  destruct s as [|a [|b [|c [|d s]]]]; unfold substr; cbn [String.substring startsWith];
    rewrite ?substring_none;
    repeat match goal with
           | |- context [Ascii.eqb ?x ?y] => destruct (Ascii.eqb_spec x y); subst
           end; cbn [andb]; try reflexivity;
    apply String.eqb_neq; congruence.
Qed.

Lemma charAt_slash s : String.eqb (charAt s 0) "/" = startsWith "/" s.
Proof.
  destruct s as [|a s]; [reflexivity|]. unfold charAt. cbn [String.get startsWith].
  destruct (Ascii.eqb_spec "/" a) as [<-|Ha]; [reflexivity|].
  apply String.eqb_neq. congruence.
Qed.

(** The rooted path, by how the trimmed path starts. *)
Lemma rooted_cases url :
  rooted url =
    if startsWith "/" (trim url) || startsWith "http" (trim url)
    then trim url else "/" +:+ trim url.
Proof.
  unfold rooted. rewrite charAt_slash, substr_http_iff.
  by destruct (startsWith "/" (trim url)), (startsWith "http" (trim url)).
Qed.

(** Text made of visible characters is found in the trimmed path as
    often as in the path. *)
Lemma occurrences_blank_l pat l s :
  pat ≠ "" → (∀ c, mem_char c pat = true → blank c = false) →
  all_blank l = true → occurrences pat (l +:+ s) = occurrences pat s.
Proof.
  intros Hne Hvis. induction l as [|c l IH]; [done|].
  cbn [all_blank]. intros [Hc Hl]%andb_prop.
  rewrite str_app_cons, occurrences_foreign_head, IH; try done.
  destruct (mem_char c pat) eqn:E; [|done]. apply Hvis in E. congruence.
Qed.

Lemma occurrences_blank_r pat s r :
  pat ≠ "" → (∀ c, mem_char c pat = true → blank c = false) →
  all_blank r = true → occurrences pat (s +:+ r) = occurrences pat s.
Proof.
  intros Hne Hvis Hr. destruct r as [|c r]; [by rewrite str_app_nil_r|].
  cbn [all_blank] in Hr. apply andb_prop in Hr as [Hc Hr].
  assert (mem_char c pat = false) as Hcp.
  { destruct (mem_char c pat) eqn:E; [|done]. apply Hvis in E. congruence. }
  rewrite occurrences_sep by done.
  rewrite <- (str_app_nil_r r), occurrences_blank_l by done.
  cbn [occurrences]. rewrite startsWith_nil_r by done. lia.
Qed.

Lemma occurrences_trim_eq pat s :
  pat ≠ "" → (∀ c, mem_char c pat = true → blank c = false) →
  occurrences pat (trim s) = occurrences pat s.
Proof.
  intros Hne Hvis. destruct (trim_split s) as (l & r & Hs & Hl & Hr).
  rewrite Hs at 2. by rewrite occurrences_blank_l, occurrences_blank_r.
Qed.

Lemma visible_pattern pat :
  forallb (fun c => negb (blank c)) (list_ascii_of_string pat) = true →
  ∀ c, mem_char c pat = true → blank c = false.
Proof.
  induction pat as [|a pat IH]; [done|].
  cbn [list_ascii_of_string forallb mem_char].
  intros [Ha Hp]%andb_prop c [Hc|Hc]%orb_prop.
  - apply Ascii.eqb_eq in Hc as ->. by apply negb_true_iff.
  - by apply IH.
Qed.

Lemma includes_rooted_eq pat url :
  pat ≠ "" → mem_char "/" pat = false →
  forallb (fun c => negb (blank c)) (list_ascii_of_string pat) = true →
  includes (rooted url) pat = includes url pat.
Proof.
  intros Hne Hs Hvis. rewrite !includes_occurrences, rooted_occurrences by done.
  rewrite occurrences_trim_eq; [done..|]. by apply visible_pattern.
Qed.

Lemma cleanUrl_suffix g url :
  ∃ suffix,
    cleanUrl g url = rooted url +:+ suffix
    ∧ (suffix = "" ∨ ∃ r, suffix = "?" +:+ r ∨ suffix = "&" +:+ r).
Proof.
  rewrite cleanUrl_steps. cbn zeta.
  set (u := rooted url).
  set (t := if truthy_str (getAccessToken g) && negb (includes u "access_token=")
            then add_param u ("access_token=" +:+ text (getAccessToken g)) else u).
  assert (∃ s, t = u +:+ s ∧ (s = "" ∨ ∃ r, s = "?" +:+ r ∨ s = "&" +:+ r))
    as (s & Ht & Hs).
  { subst t. destruct (_ && _).
    - rewrite add_param_suffix. eexists. split; [done|]. right.
      destruct (includes u "?"); eauto.
    - exists "". by rewrite str_app_nil_r; auto. }
  destruct (_ && _ && _).
  - rewrite add_param_suffix, Ht, str_app_assoc. eexists. split; [done|]. right.
    destruct Hs as [->|[r [-> | ->]]]; [|eauto..].
    rewrite str_app_nil_l. destruct (includes _ "?"); eauto.
  - exists s. by rewrite <- Ht.
Qed.

(** X1.  [cleanUrl] keeps the path it is given: it trims it, puts a slash in
    front when it starts with neither a slash nor [http], and adds
    parameters at the end. *)
Theorem cleanUrl_only_appends (g : Graph) (url : string) :
  ∃ suffix,
    cleanUrl g url =
      (if startsWith "/" (trim url) || startsWith "http" (trim url)
       then trim url else "/" +:+ trim url) +:+ suffix
    ∧ (suffix = "" ∨ ∃ r, suffix = "?" +:+ r ∨ suffix = "&" +:+ r).
Proof.
  destruct (cleanUrl_suffix g url) as (suffix & Hurl & Hs).
  exists suffix. by rewrite <- rooted_cases.
Qed.

(** X2.  A URL that already carries a token and a proof is only trimmed and
    rooted, whatever the client holds. *)
Theorem cleanUrl_keeps_signed_url (g : Graph) (url : string) :
  includes url "access_token=" = true → includes url "appsecret_proof" = true →
  cleanUrl g url = rooted url.
Proof.
  intros Htok Hproof. rewrite cleanUrl_steps. cbn zeta.
  rewrite (includes_rooted_eq "access_token=") by done. rewrite Htok.
  rewrite andb_false_r. rewrite (includes_rooted_eq "appsecret_proof") by done.
  by rewrite Hproof, andb_false_r.
Qed.

(** X3.  Without a client token and without a token in the path nothing is
    added, also when the client has an app secret. *)
Theorem cleanUrl_without_token (g : Graph) (url : string) :
  truthy_str (getAccessToken g) = false → indexOf url "access_token=" = -1 →
  cleanUrl g url = rooted url.
Proof.
  intros Htok Hurl. rewrite cleanUrl_steps, (signing_token_plain g url Hurl), Htok.
  reflexivity.
Qed.

End UrlShape.
Section PreparedUrlShape.
Import JsString Chars Steps GraphStream.

Lemma cleanUrl_starts g url :
  startsWith "http" (cleanUrl g url) = startsWith "http" (trim url)
  ∧ (startsWith "http" (trim url) = false → startsWith "/" (cleanUrl g url) = true).
Proof.
  destruct (cleanUrl_suffix g url) as (suffix & -> & _).
  rewrite rooted_cases.
  destruct (startsWith "/" (trim url)) eqn:Hs, (startsWith "http" (trim url)) eqn:Hh;
    cbn [orb].
  - destruct (trim url) as [|a u]; [done|]. cbn [startsWith] in Hs.
    apply andb_prop in Hs as [<-%Ascii.eqb_eq _]. simpl in Hh. discriminate.
  - split; [|intros _; by apply startsWith_app_l].
    destruct (trim url) as [|a u]; [done|]. cbn [startsWith] in Hs.
    apply andb_prop in Hs as [<-%Ascii.eqb_eq _]. reflexivity.
  - split; [by apply startsWith_app_l|done].
  - split; reflexivity.
Qed.

Lemma prepareUrl_cases g url :
  prepareUrl g url =
    if startsWith "http" (trim url) then cleanUrl g url
    else getGraphUrl g +:+ "/v" +:+ getVersion g +:+ cleanUrl g url.
Proof.
  destruct (cleanUrl_starts g url) as [Hh _].
  unfold prepareUrl. rewrite substr_http_iff, Hh.
  by destruct (startsWith "http" (trim url)).
Qed.

(** X7.  A path that starts with [http] is sent as built; every other path
    is put behind the host and the version, and then starts with a
    slash. *)
Theorem prepareUrl_absolute_or_relative (g : Graph) (url : string) :
  prepareUrl g url =
    (if startsWith "http" (trim url) then cleanUrl g url
     else getGraphUrl g +:+ "/v" +:+ getVersion g +:+ cleanUrl g url)
  ∧ (startsWith "http" (trim url) = false → startsWith "/" (cleanUrl g url) = true).
Proof. split; [apply prepareUrl_cases|apply cleanUrl_starts]. Qed.

(** X8.  With a host that starts with [http], as the default one does, every
    request URL starts with [http]. *)
Theorem prepareUrl_is_absolute (g : Graph) (url : string) :
  startsWith "http" (getGraphUrl g) = true →
  startsWith "http" (prepareUrl g url) = true.
Proof.
  intros Hhost. destruct (cleanUrl_starts g url) as [Hh _].
  unfold prepareUrl. rewrite substr_http_iff, Hh.
  destruct (startsWith "http" (trim url)) eqn:E; cbn [negb].
  - by rewrite Hh.
  - by apply startsWith_app_l.
Qed.

(** X9.  The token parameter stays single behind the host and the version,
    when these do not spell it. *)
Theorem prepareUrl_token_once (g : Graph) (p tok : string) :
  getAccessToken g = Some tok → tok ≠ "" →
  indexOf p "access_token=" = -1 →
  indexOf tok "access_token=" = -1 →
  indexOf (getGraphUrl g) "access_token=" = -1 →
  indexOf (getVersion g) "access_token=" = -1 →
  occurrences "access_token=" (prepareUrl g p) = 1%nat.
Proof.
  intros Htok Hne Hp Ht Hhost Hver.
  rewrite (prepareUrl_occurrences g p tok) by done.
  apply indexOf_none in Hhost, Hver, Ht. rewrite Hhost, Hver.
  assert (occurrences "access_token=" (cleanUrl g p) = 1%nat) as ->.
  { destruct (cleanUrl_adds_token g p tok Htok Hne Hp) as (rest & -> & Hrest).
    assert (occurrences "access_token=" (rooted p) = 0%nat) as Hbase.
    { rewrite rooted_occurrences by done. by apply occurrences_none_trim. }
    destruct (mem_char "?" p); by apply token_url_occurrences. }
  by destruct (String.eqb _ _).
Qed.

End PreparedUrlShape.

Section DigestShape.
Import JsString Chars Steps.

Lemma round_length st kw : length (Crypto.round st kw) = length st.
Proof.
  unfold Crypto.round.
  do 9 (destruct st as [|? st]; try reflexivity).
Qed.

Lemma rounds_length kws st :
  length (fold_left Crypto.round kws st) = length st.
Proof.
  revert st. induction kws as [|kw kws IH]; intros st; [done|].
  cbn [fold_left]. by rewrite IH, round_length.
Qed.

Lemma compress_length h block : length (Crypto.compress h block) = length h.
Proof.
  unfold Crypto.compress.
  rewrite length_map, length_combine, rounds_length. lia.
Qed.

Lemma blocks_length fuel h ws : length (Crypto.blocks fuel h ws) = length h.
Proof.
  revert h ws. induction fuel as [|fuel IH]; intros h ws; [done|].
  destruct ws as [|w ws]; [done|]. cbn [Crypto.blocks].
  by rewrite IH, compress_length.
Qed.

Lemma flat_bytes_length ws :
  length (flat_map (Crypto.be_bytes 4) ws) = (4 * length ws)%nat.
Proof. induction ws as [|w ws IH]; [done|]. cbn [flat_map]. rewrite length_app, IH. simpl. lia. Qed.

Lemma sha256_length msg : length (Crypto.sha256 msg) = 32%nat.
Proof. unfold Crypto.sha256. by rewrite flat_bytes_length, blocks_length. Qed.

Lemma hex_length bs : String.length (Crypto.hex bs) = (2 * length bs)%nat.
Proof. induction bs as [|b bs IH]; [done|]. cbn [Crypto.hex String.length length]. rewrite IH. lia. Qed.

(** X6.  The proof is always 64 lower case hex digits: it brings no [&],
    [?], [=] or [#] into the URL. *)
Theorem proof_is_64_hex_digits (key msg : string) :
  String.length (Crypto.hmac_sha256_hex key msg) = 64%nat
  ∧ over hex_digits (Crypto.hmac_sha256_hex key msg) = true
  ∧ ∀ c, mem_char c "&?=#/ " = true →
         mem_char c (Crypto.hmac_sha256_hex key msg) = false.
Proof.
  unfold Crypto.hmac_sha256_hex, Crypto.hmac_sha256.
  split; [by rewrite hex_length, sha256_length|]. split; [apply hex_over|].
  intros c Hc. apply (over_mem hex_digits); [apply hex_over|].
  cbn [mem_char] in Hc. rewrite !orb_true_iff in Hc.
  repeat destruct Hc as [Hc|Hc]; try discriminate;
    apply Ascii.eqb_eq in Hc as ->; reflexivity.
Qed.

End DigestShape.
(** * Further properties of [end] and of the handlers *)

Section ResponseShape.
Import JsString Chars Steps GraphStream.
Context {P : Parsers}.

(** X10.  A remote error is never dropped: whenever [end] delivers a truthy
    result, the error it delivers is the truthy [error] member of that
    result, and [null] when the result has none. *)
Theorem end_surfaces_error_member (body : value) :
  truthy (cb_res (end_ body)) = true →
  cb_err (end_ body) =
    if truthy (member (cb_res (end_ body)) "error")
    then member (cb_res (end_ body)) "error" else VNull.
Proof.
  unfold end_, end_trace.
  set (json := match body with VString _ => VNull | _ => body end).
  destruct (truthy json) eqn:Hjson; cbn [negb].
  - cbn [truthy negb andb snd cb_err cb_res]. unfold js_and. by rewrite Hjson.
  - destruct (end_try body) as [calls [v|e]]; cbn [snd cb_err cb_res truthy negb andb].
    + unfold js_and. intros ->. done.
    + intros Hres. congruence.
Qed.

(** X11.  A body that arrives as a value is not parsed: a truthy one is the
    result as it is, a falsy one ([undefined], [null], [false], [0]) is
    reported as a parse error whose cause is a [TypeError]. *)
Theorem end_value_body (body : value) :
  (∀ s, body ≠ VString s) →
  fst (end_trace body) = []
  ∧ cb_res (end_ body) = body
  ∧ (truthy body = false → cb_err (end_ body) = parse_error (VError "TypeError")).
Proof.
  intros Hs. destruct (truthy body) eqn:Ht.
  - unfold end_. rewrite end_trace_value by done. by repeat split.
  - unfold end_, end_trace.
    assert (match body with VString _ => VNull | _ => body end = body) as ->.
    { destruct body; try done. by destruct (Hs s). }
    rewrite Ht. cbn [negb].
    assert (end_try body = ([], inr (VError "TypeError"))) as ->.
    { destruct body; try done. by destruct (Hs s). }
    by repeat split.
Qed.

(** X12.  A failure of the transport reaches the callback as the error
    [Error processing https request] with the failure as its cause and
    with a [null] result, from the function and from the [error] event
    alike; the body is not looked at. *)
Theorem transport_failure_report (m : method) (err : value) (res : response)
    (body : value) :
  member (transport_error err) "message" = VString "Error processing https request"
  ∧ member (transport_error err) "exception" = err
  ∧ handle m (ErrorEmitted err) = Returned [Callback (transport_error err) VNull]
  ∧ (truthy err = true →
     handle m (Completed err res body) = Returned [Callback (transport_error err) VNull]).
Proof.
  split; [reflexivity|]. split; [reflexivity|]. split; [by destruct m|].
  intros Herr. destruct m; cbn [handle]; unfold get_callback, post_callback;
    by rewrite Herr.
Qed.

End ResponseShape.
(** * Further properties of the public calls *)

Section CallShape.
Import JsString Chars Steps GraphStream.
Context {P : Parsers} {Q : Stringifier} {J : JsonWriter}.

Lemma request_options_lookup g m url pd k :
  request_options g m url pd !! k =
    if decide (k = "body")
    then match m with
         | GET => own_props (getOptions g) !! "body"
         | POST => Some (VString (qs_stringify pd))
         end
    else options g m url !! k.
Proof.
  destruct m; cbn [request_options].
  - case_decide; [subst|done]. by rewrite options_lookup.
  - rewrite lookup_insert. by repeat case_decide.
Qed.

Lemma startsWith_shorter p q s :
  startsWith (p +:+ q) s = true → startsWith p s = true.
Proof.
  revert s. induction p as [|a p IH]; intros s; [by destruct s|].
  rewrite str_app_cons. destruct s as [|b s]; cbn [startsWith]; [done|].
  intros [-> H]%andb_prop. by rewrite (IH s H).
Qed.

Lemma occurrences_longer p q s :
  occurrences p s = 0%nat → occurrences (p +:+ q) s = 0%nat.
Proof.
  induction s as [|c s IH]; cbn [occurrences].
  - destruct (startsWith p "") eqn:E; [lia|]. intros _.
    destruct (startsWith (p +:+ q) "") eqn:E'; [|done].
    apply startsWith_shorter in E'. congruence.
  - destruct (startsWith p (String c s)) eqn:E; [lia|]. intros H.
    destruct (startsWith (p +:+ q) (String c s)) eqn:E'.
    + apply startsWith_shorter in E'. congruence.
    + rewrite IH; lia.
Qed.

Lemma includes_app_r x s pat :
  includes s pat = true → includes (x +:+ s) pat = true.
Proof.
  rewrite !includes_occurrences, !negb_true_iff, !Nat.eqb_neq.
  intros Hs. induction x as [|c x IH]; [done|].
  rewrite str_app_cons. cbn [occurrences]. lia.
Qed.

Lemma includes_self pat y : includes (pat +:+ y) pat = true.
Proof.
  rewrite includes_occurrences. apply negb_true_iff, Nat.eqb_neq.
  destruct (pat +:+ y) eqn:E; cbn [occurrences]; rewrite <- E, startsWith_self; lia.
Qed.

(** X15.  [get] with a [url] that is not a string completes at once with the
    error and sends nothing; with a string it sends one [GET] whose URL
    is the prepared path, after the query made of [params] when these
    are truthy, and sets no body. *)
Theorem get_sends_or_rejects (g : Graph) (url params : value) :
  match url with
  | VString u =>
      ∃ opts, Graph.get g url params = Sent GET opts
        ∧ opts !! "method" = Some (VString "GET")
        ∧ opts !! "uri" =
            Some (VString (prepareUrl g
              (if truthy params
               then u +:+ (if mem_char "?" u then "&" else "?") +:+ qs_stringify params
               else u)))
        ∧ opts !! "body" = own_props (getOptions g) !! "body"
  | _ =>
      Graph.get g url params = Immediate Graph.invalid_url
      ∧ cb_res Graph.invalid_url = VNull
      ∧ member (cb_err Graph.invalid_url) "message" =
          VString "Graph api url must be a string"
  end.
Proof.
  destruct url; try by repeat split.
  eexists. split; [reflexivity|]. rewrite !request_options_lookup, !options_lookup.
  repeat case_decide; try done. repeat split.
  destruct (truthy params); [|done].
  by rewrite add_param_suffix, includes_char.
Qed.

(** X16.  [post] sends one [POST] whose form body is the stringified
    [postData], in place of any [body] among the client's options; when
    [postData] is left out the form is empty for a URL that mentions
    [access_token] and holds the client token otherwise, as the client
    holds it: [undefined] while unset, [null] once set to [null]. *)
Theorem post_form_body (g : Graph) (u : string) (postData : option value) :
  ∃ opts, Graph.post g (VString u) postData = Sent POST opts
    ∧ opts !! "method" = Some (VString "POST")
    ∧ opts !! "uri" = Some (VString (prepareUrl g u))
    ∧ opts !! "body" =
        Some (VString (qs_stringify
          match postData with
          | Some d => d
          | None =>
              if includes u "access_token" then VObject ∅
              else VObject (<["access_token" := token_value (accessToken g)]> ∅)
          end))
    ∧ token_value (accessToken defaultGraph) = VUndefined
    ∧ token_value (accessToken (setAccessToken TokenNull g)) = VNull.
Proof.
  eexists. split; [reflexivity|]. rewrite !request_options_lookup, !options_lookup.
  repeat case_decide; try done. repeat split.
  destruct postData; [done|]. by rewrite indexOf_test, negb_involutive.
Qed.

Lemma post_body_options g u :
  ∃ opts, Graph.post g (VString u) None = Sent POST opts
    ∧ opts !! "body" = Some (VString (qs_stringify (Graph.default_postData g u)))
    ∧ opts !! "uri" = Some (VString (prepareUrl g u)).
Proof.
  eexists. split; [reflexivity|]. rewrite !request_options_lookup, !options_lookup.
  by repeat case_decide.
Qed.

(** X17.  A [post] without data for a client with a token, to a URL that does
    not mention [access_token], sends the token twice: in the form body
    and in the URL. *)
Theorem post_sends_token_twice (g : Graph) (u tok : string) :
  getAccessToken g = Some tok → tok ≠ "" →
  indexOf u "access_token" = -1 →
  ∃ opts uri, Graph.post g (VString u) None = Sent POST opts
    ∧ opts !! "body" =
        Some (VString (qs_stringify (VObject (<["access_token" := VString tok]> ∅))))
    ∧ opts !! "uri" = Some (VString uri)
    ∧ includes uri ("access_token=" +:+ tok) = true.
Proof.
  intros Htok Hne Hu.
  destruct (post_body_options g u) as (opts & Hpost & Hbody & Huri).
  exists opts, (prepareUrl g u). split; [done|]. split.
  - rewrite Hbody. unfold Graph.default_postData.
    unfold getAccessToken in Htok.
    destruct (accessToken g) as [| |s]; try discriminate Htok.
    injection Htok as ->. by rewrite Hu.
  - split; [done|].
    assert (indexOf u "access_token=" = -1) as Hu'.
    { apply indexOf_none. apply (occurrences_longer "access_token" "=").
      by apply indexOf_none. }
    destruct (cleanUrl_adds_token g u tok Htok Hne Hu') as (rest & Hclean & _).
    assert (includes (cleanUrl g u) ("access_token=" +:+ tok) = true) as Hin.
    { rewrite Hclean. apply includes_app_r.
      rewrite <- (str_app_assoc "access_token=" tok). apply includes_self. }
    rewrite prepareUrl_cases. destruct (startsWith "http" (trim u)); [done|].
    by do 3 apply includes_app_r.
Qed.

End CallShape.
Section DeleteAndBatch.
Import JsString Chars Steps GraphStream.
Context {P : Parsers} {Q : Stringifier} {J : JsonWriter}.

Lemma matches_after_separator url sep :
  sep = "&" ∨ sep = "?" →
  Graph.matches_method_delete (url +:+ sep +:+ "method=delete") = true.
Proof.
  intros Hsep. induction url as [|c url IH].
  - rewrite str_app_nil_l. by destruct Hsep as [-> | ->].
  - rewrite str_app_cons. cbn [Graph.matches_method_delete].
    rewrite IH. apply orb_true_r.
Qed.

Lemma matches_after_param url :
  Graph.matches_method_delete (add_param url "method=delete") = true.
Proof.
  rewrite add_param_suffix. apply matches_after_separator.
  destruct (includes url "?"); auto.
Qed.

(** X18.  [del] posts to a URL that carries [method=delete]: the URL it is
    given when the pattern finds it there in any case, and otherwise
    that URL with [method=delete] added as a parameter, which adds the
    text once. *)
Theorem del_posts_with_method_delete (g : Graph) (u : string) (postData : option value) :
  ∃ u',
    Graph.del g (VString u) postData =
      inl (Graph.post g (VString u')
             (Some match postData with
                   | Some d => d
                   | None => Graph.default_postData g u'
                   end))
    ∧ u' = (if Graph.matches_method_delete u then u
            else u +:+ (if mem_char "?" u then "&" else "?") +:+ "method=delete")
    ∧ Graph.matches_method_delete u' = true
    ∧ (Graph.matches_method_delete u = false →
       occurrences "method=delete" u' = S (occurrences "method=delete" u)).
Proof.
  eexists. split; [reflexivity|].
  destruct (Graph.matches_method_delete u) eqn:Hm; cbn [negb].
  - by repeat split.
  - split; [by rewrite add_param_suffix, includes_char|].
    split; [apply matches_after_param|]. intros _.
    rewrite add_param_occurrences by done.
    change (occurrences "method=delete" "method=delete") with 1%nat. lia.
Qed.

(** X19.  A [url] that is not a string sends nothing.  [get] reports it
    through the callback, and so does [post] when it is given data;
    [post] with the callback in the place of the data tests the [url]
    before it moves the callback, calls [undefined] and throws; [del]
    throws either way. *)
Theorem calls_on_invalid_url (g : Graph) (url params d : value) (postData : option value) :
  (∀ s, url ≠ VString s) →
  Graph.get g url params = Immediate Graph.invalid_url
  ∧ Graph.post g url (Some d) = Immediate Graph.invalid_url
  ∧ Graph.post g url None = Raised (VError "TypeError")
  ∧ Graph.del g url postData = inr (VError "TypeError")
  ∧ member (cb_err Graph.invalid_url) "message" = VString "Graph api url must be a string"
  ∧ cb_res Graph.invalid_url = VNull.
Proof.
  intros Hs. destruct url as [| | | |s| | |]; try by repeat split. by destruct (Hs s).
Qed.

Lemma assign_lookup target source k :
  assign target source !! k =
    match assigned_props source !! k with
    | Some v => Some v
    | None => target !! k
    end.
Proof.
  unfold assign. rewrite lookup_union.
  destruct (assigned_props source !! k), (target !! k); reflexivity.
Qed.

(** X20.  [batch] with requests that are not an array sends nothing: given
    additional data it completes at once with the error; with the
    callback in the place of the data it tests the requests before it
    moves the callback, calls [undefined] and throws.  With an array it
    posts to the root path a form in which every field of
    [additionalData] appears as given, and [batch] (the requests as
    JSON text) and [access_token] (the client token as the client holds
    it, [null] once set to [null]) appear unless [additionalData] has a
    field of that name. *)
Theorem batch_form (g : Graph) (reqs : value) (additionalData : option value) :
  match reqs with
  | VArray _ =>
      ∃ opts fields,
        Graph.batch g reqs additionalData = Sent POST opts
        ∧ opts !! "method" = Some (VString "POST")
        ∧ opts !! "uri" = Some (VString (prepareUrl g ""))
        ∧ opts !! "body" = Some (VString (qs_stringify (VObject fields)))
        ∧ (∀ k, fields !! k =
             match assigned_props (default (VObject ∅) additionalData) !! k with
             | Some v => Some v
             | None =>
                 if decide (k = "access_token") then Some (token_value (accessToken g))
                 else if decide (k = "batch") then Some (VString (JSON_stringify reqs))
                 else None
             end)
  | _ =>
      Graph.batch g reqs additionalData =
        match additionalData with
        | Some _ => Immediate Graph.invalid_batch
        | None => Raised (VError "TypeError")
        end
      ∧ member (cb_err Graph.invalid_batch) "message" =
          VString "Graph api batch requests must be an array"
      ∧ cb_res Graph.invalid_batch = VNull
  end.
Proof.
  destruct reqs; try by repeat split.
  eexists _, _. split; [reflexivity|].
  rewrite !request_options_lookup, !options_lookup.
  repeat case_decide; try done. repeat split.
  intros k. rewrite !assign_lookup.
  assert (default (VObject ∅) additionalData =
          match additionalData with Some d => d | None => VObject ∅ end) as ->
    by by destruct additionalData.
  destruct (assigned_props _ !! k); [done|].
  cbn [assigned_props own_props]. unfold Graph.batch_fields.
  rewrite !lookup_insert, lookup_empty. by repeat case_decide.
Qed.

(** X21.  [setVersion] moves the version segment of the request URLs and of
    both dialog URLs, and nothing else: the path after the version is
    built as before. *)
Theorem setVersion_moves_urls (g : Graph) (v url : string) (params opts : value) :
  Graph.getOauthUrl (setVersion v g) params opts =
    (if truthy (js_and opts (member opts "mobile"))
     then "https://m.facebook.com/v" else "https://www.facebook.com/v")
    +:+ v +:+ "/dialog/oauth?" +:+ qs_stringify params
  ∧ getVersion (setVersion v g) = v
  ∧ cleanUrl (setVersion v g) url = cleanUrl g url
  ∧ prepareUrl (setVersion v g) url =
      (if startsWith "http" (trim url) then cleanUrl g url
       else getGraphUrl g +:+ "/v" +:+ v +:+ cleanUrl g url).
Proof.
  split; [|split; [reflexivity|split; [reflexivity|]]].
  - unfold Graph.getOauthUrl. destruct (truthy _); cbn [setVersion oauthDialogUrl
      oauthDialogUrlMobile]; by rewrite !str_app_assoc.
  - by rewrite prepareUrl_cases.
Qed.

End DeleteAndBatch.
Section TokenExchange.
Import JsString Chars Steps GraphStream.
Context {P : Parsers} {Q : Stringifier} {J : JsonWriter}.



(** X23.  On a successful answer the two forms of [extendAccessToken] store
    the new token under opposite conditions: the callback form when
    [params] has no truthy [access_token] of its own, the promise form
    when it has one. *)
Theorem extendAccessToken_forms_are_opposite (g : Graph) (params : gmap string value)
    (c : completion) :
  truthy (cb_err c) = false → nullish (cb_res c) = false →
  let own := truthy (field params "access_token") in
  let stored := store_token (member (cb_res c) "access_token") g in
  fst <$> Graph.extendAccessToken_callback (Graph.exchange_params g params) g c =
    (if own then Some g else stored)
  ∧ PromiseGraph.promisified [c] = Some (Resolved (cb_res c))
  ∧ fst <$> PromiseGraph.extendAccessToken_resume (Graph.exchange_params g params) g
              (Resolved (cb_res c)) =
    (if own then stored else Some g).
Proof.
  intros Herr Hres. cbn zeta.
  unfold Graph.extendAccessToken_callback, PromiseGraph.extendAccessToken_resume.
  cbn [PromiseGraph.promisified].
  rewrite exchange_params_own_token, Herr, Hres.
  destruct (truthy (field params "access_token")); cbn [negb andb];
    by destruct (store_token _ g).
Qed.

(** X24.  [extendAccessToken] always asks for the grant [fb_exchange_token],
    whatever grant the caller named, exchanges the caller's token when
    [params] has a truthy one and the client's otherwise, as the client
    holds it ([undefined] while unset, [null] once set to [null]), and
    passes every other parameter on. *)
Theorem exchange_params_fields (g : Graph) (params : gmap string value) :
  let sent := Graph.exchange_params g params in
  sent !! "grant_type" = Some (VString "fb_exchange_token")
  ∧ sent !! "fb_exchange_token" =
      Some (if truthy (field params "access_token") then field params "access_token"
            else token_value (accessToken g))
  ∧ (∀ k, k ≠ "grant_type" → k ≠ "fb_exchange_token" → sent !! k = params !! k).
Proof.
  cbn zeta. unfold Graph.exchange_params.
  split; [by rewrite lookup_insert_ne, lookup_insert_eq|].
  split.
  - rewrite lookup_insert_eq. unfold field. by rewrite lookup_insert_ne.
  - intros k H1 H2. by rewrite !lookup_insert_ne.
Qed.


End TokenExchange.
Section BuiltTwice.
Import JsString Chars Steps GraphStream.

Lemma includes_app_l s y pat :
  includes s pat = true → includes (s +:+ y) pat = true.
Proof.
  rewrite !includes_occurrences, !negb_true_iff, !Nat.eqb_neq.
  intros Hs H. by apply occurrences_prefix in H.
Qed.

Lemma includes_add_param url piece pat :
  includes piece pat = true → includes (add_param url piece) pat = true.
Proof. intros H. unfold add_param. by apply includes_app_r. Qed.

Lemma includes_add_param_old url piece pat :
  includes url pat = true → includes (add_param url piece) pat = true.
Proof. intros H. unfold add_param. by do 2 apply includes_app_l. Qed.

Lemma exec_access_token_rooted url :
  exec_access_token (rooted url) = exec_access_token (trim url).
Proof.
  rewrite rooted_cases. destruct (_ || _); [done|].
  by rewrite exec_access_token_unfold.
Qed.

Lemma rooted_fixed r :
  trim r = r → startsWith "/" r || startsWith "http" r = true → rooted r = r.
Proof. intros Ht Hs. by rewrite rooted_cases, Ht, Hs. Qed.

Lemma rooted_starts url :
  startsWith "/" (rooted url) || startsWith "http" (rooted url) = true.
Proof.
  destruct (rooted_shape url) as [[x ->] | ->]; [done|apply orb_true_r].
Qed.

Lemma cleanUrl_fixed g r :
  trim r = r → rooted r = r →
  (truthy_str (getAccessToken g) = true → includes r "access_token=" = true) →
  truthy_str (match exec_access_token r with
              | Some x => Some x
              | None => getAccessToken g
              end)
  && truthy_str (getAppSecret g) && negb (includes r "appsecret_proof") = false →
  cleanUrl g r = r.
Proof.
  intros Htrim Hroot Htok Hgate. rewrite cleanUrl_steps. cbn zeta.
  unfold signing_token. rewrite Htrim, Hroot.
  assert (truthy_str (getAccessToken g) && negb (includes r "access_token=") = false)
    as ->.
  { destruct (truthy_str (getAccessToken g)); [|done]. by rewrite Htok. }
  by rewrite Hgate.
Qed.

(** X4.  Building a built URL again changes nothing, as long as the built
    URL has no white space around it (it has none unless the token
    ends in white space). *)
Theorem cleanUrl_idempotent (g : Graph) (url : string) :
  trim (cleanUrl g url) = cleanUrl g url →
  cleanUrl g (cleanUrl g url) = cleanUrl g url.
Proof.
  intros Htrim. apply cleanUrl_fixed; [done|..].
  - apply rooted_fixed; [done|].
    destruct (cleanUrl_suffix g url) as (suffix & -> & _).
    pose proof (rooted_starts url) as [H|H]%orb_prop.
    + by rewrite (startsWith_app_l _ _ _ H).
    + rewrite (startsWith_app_l _ _ _ H). apply orb_true_r.
  - intros Htok. rewrite cleanUrl_steps. cbn zeta. rewrite Htok. cbn [andb].
    assert (includes
              (if negb (includes (rooted url) "access_token=")
               then add_param (rooted url) ("access_token=" +:+ text (getAccessToken g))
               else rooted url) "access_token=" = true) as Hwt.
    { destruct (includes (rooted url) "access_token=") eqn:E; cbn [negb]; [done|].
      apply includes_add_param, includes_self. }
    destruct (_ && _ && _); [by apply includes_add_param_old|done].
  - clear Htrim. rewrite cleanUrl_steps. cbn zeta.
    set (u := rooted url).
    set (wt := if truthy_str (getAccessToken g) && negb (includes u "access_token=")
               then add_param u ("access_token=" +:+ text (getAccessToken g)) else u).
    destruct (truthy_str (signing_token g url) && truthy_str (getAppSecret g)
              && negb (includes wt "appsecret_proof")) eqn:Hgate.
    + assert (includes (add_param wt (proof_param (text (getAppSecret g))
                                        (text (signing_token g url))))
                "appsecret_proof" = true) as ->; [|by rewrite andb_false_r].
      apply includes_add_param.
      change (proof_param ?k ?x)
        with ("appsecret_proof" +:+ "=" +:+ Crypto.hmac_sha256_hex k x).
      apply includes_self.
    + apply andb_false_iff in Hgate as [Hgate|Hgate];
        [apply andb_false_iff in Hgate as [Hsig|Hsec]|].
      * (* no signing token: none in the path, or an empty one *)
        unfold signing_token in Hsig.
        assert (wt = u) as ->.
        { subst wt. destruct (exec_access_token (trim url)) as [X|] eqn:HX.
          - assert (includes u "access_token=" = true) as ->; [|by rewrite andb_false_r].
            subst u. rewrite includes_occurrences, rooted_occurrences by done.
            apply negb_true_iff, Nat.eqb_neq.
            rewrite <- exec_access_token_none. by rewrite HX.
          - by rewrite Hsig. }
        subst u. rewrite exec_access_token_rooted.
        destruct (exec_access_token (trim url)); by rewrite Hsig.
      * by rewrite Hsec, andb_false_r.
      * by rewrite Hgate, andb_false_r.
Qed.

End BuiltTwice.
(** * The further properties at concrete inputs *)

Section ConcreteShapes.
Import JsString Chars Steps GraphStream Samples.
#[local] Existing Instance Reference.parsers.
#[local] Existing Instance Reference.stringifier.
#[local] Existing Instance Reference.json_writer.

Lemma cleanUrl_keeps_signed_url_witness :
  cleanUrl token_client "https://graph.example/me?access_token=a&appsecret_proof=b" =
  rooted "https://graph.example/me?access_token=a&appsecret_proof=b".
Proof.
  apply (cleanUrl_keeps_signed_url token_client
           "https://graph.example/me?access_token=a&appsecret_proof=b");
    reflexivity.
Defined.

Lemma cleanUrl_without_token_witness :
  cleanUrl signed_client " me/feed " = rooted " me/feed ".
Proof. apply (cleanUrl_without_token signed_client " me/feed "); reflexivity. Defined.

Lemma prepareUrl_absolute_or_relative_witness :
  startsWith "/" (cleanUrl token_client "me") = true.
Proof.
  apply (proj2 (prepareUrl_absolute_or_relative token_client "me")). reflexivity.
Defined.

Lemma prepareUrl_is_absolute_witness :
  startsWith "http" (prepareUrl token_client "me/feed?limit=5") = true.
Proof. apply (prepareUrl_is_absolute token_client "me/feed?limit=5"). reflexivity. Defined.

Lemma prepareUrl_token_once_witness :
  occurrences "access_token=" (prepareUrl token_client "me/feed?limit=5") = 1%nat.
Proof.
  apply (prepareUrl_token_once token_client "me/feed?limit=5" "tok");
    solve [reflexivity | discriminate].
Defined.

Lemma proof_is_64_hex_digits_witness :
  mem_char "&" (Crypto.hmac_sha256_hex "s" "tok") = false.
Proof.
  apply (proj2 (proj2 (proof_is_64_hex_digits "s" "tok")) "&"%char). reflexivity.
Defined.

Lemma exec_access_token_found_witness :
  exec_access_token ("me?fields=id&" +:+ "access_token=" +:+ "abc" +:+ "&limit=5")
  = Some "abc".
Proof.
  apply (exec_access_token_found "me?fields=id&" "abc" "&limit=5");
    [reflexivity|reflexivity|]. right. by exists "limit=5".
Defined.

Lemma cleanUrl_idempotent_witness :
  cleanUrl token_client (cleanUrl token_client " me/feed?limit=5 ") =
  cleanUrl token_client " me/feed?limit=5 ".
Proof.
  apply (cleanUrl_idempotent token_client " me/feed?limit=5 "). vm_compute. reflexivity.
Defined.

Lemma end_surfaces_error_member_witness :
  cb_err (end_ remote_error_body) =
    if truthy (member (cb_res (end_ remote_error_body)) "error")
    then member (cb_res (end_ remote_error_body)) "error" else VNull.
Proof. apply (end_surfaces_error_member remote_error_body). reflexivity. Defined.

Lemma end_value_body_witness :
  fst (end_trace VUndefined) = []
  ∧ cb_res (end_ VUndefined) = VUndefined
  ∧ (truthy VUndefined = false →
     cb_err (end_ VUndefined) = parse_error (VError "TypeError")).
Proof. apply (end_value_body VUndefined). discriminate. Defined.

Lemma transport_failure_report_witness :
  handle POST (Completed (VError "Error") bare_response VUndefined) =
  Returned [Callback (transport_error (VError "Error")) VNull].
Proof.
  apply (proj2 (proj2 (proj2
           (transport_failure_report POST (VError "Error") bare_response VUndefined)))).
  reflexivity.
Defined.

Lemma handle_calls_back_once_witness :
  ∃ c, handle GET (Completed VNull json_response (VString "id=1")) = Returned [c].
Proof.
  apply (handle_calls_back_once GET (Completed VNull json_response (VString "id=1"))).
  intros err res body [= <- <- <-] _ _. by eexists.
Defined.

Lemma failure_reported_twice_calls_back_twice_witness :
  invocations (handle GET (Completed (VError "Error") bare_response VUndefined))
  ++ invocations (handle GET (ErrorEmitted (VError "Error"))) =
  [Callback (transport_error (VError "Error")) VNull;
   Callback (transport_error (VError "Error")) VNull].
Proof.
  apply (failure_reported_twice_calls_back_twice GET (VError "Error") bare_response).
  reflexivity.
Defined.

Lemma post_sends_token_twice_witness :
  ∃ opts uri, Graph.post token_client (VString "me/feed") None = Sent POST opts
    ∧ opts !! "body" =
        Some (VString (qs_stringify (VObject (<["access_token" := VString "tok"]> ∅))))
    ∧ opts !! "uri" = Some (VString uri)
    ∧ includes uri ("access_token=" +:+ "tok") = true.
Proof.
  apply (post_sends_token_twice token_client "me/feed" "tok");
    solve [reflexivity | discriminate].
Defined.

Lemma del_posts_with_method_delete_witness :
  ∃ u',
    Graph.del token_client (VString "123") None =
      inl (Graph.post token_client (VString u')
             (Some (Graph.default_postData token_client u')))
    ∧ u' = "123?method=delete"
    ∧ occurrences "method=delete" u' = 1%nat.
Proof.
  destruct (del_posts_with_method_delete token_client "123" None)
    as (u' & Hdel & Hu & _ & Honce).
  exists u'. split; [exact Hdel|]. split; [exact Hu|]. apply Honce. reflexivity.
Defined.

Lemma calls_on_invalid_url_witness :
  Graph.get token_client (VNumber 5%float) VNull = Immediate Graph.invalid_url
  ∧ Graph.post token_client (VNumber 5%float) (Some (VObject ∅)) =
      Immediate Graph.invalid_url
  ∧ Graph.post token_client (VNumber 5%float) None = Raised (VError "TypeError")
  ∧ Graph.del token_client (VNumber 5%float) None = inr (VError "TypeError")
  ∧ member (cb_err Graph.invalid_url) "message" = VString "Graph api url must be a string"
  ∧ cb_res Graph.invalid_url = VNull.
Proof.
  apply (calls_on_invalid_url token_client (VNumber 5%float) VNull (VObject ∅) None).
  discriminate.
Defined.


Lemma extendAccessToken_forms_are_opposite_witness :
  let c := Callback VNull (VObject (<["access_token" := VString "new"]> ∅)) in
  let own := truthy (field own_token_params "access_token") in
  let stored := store_token (member (cb_res c) "access_token") old_token_client in
  fst <$> Graph.extendAccessToken_callback
            (Graph.exchange_params old_token_client own_token_params) old_token_client c =
    (if own then Some old_token_client else stored)
  ∧ PromiseGraph.promisified [c] = Some (Resolved (cb_res c))
  ∧ fst <$> PromiseGraph.extendAccessToken_resume
              (Graph.exchange_params old_token_client own_token_params) old_token_client
              (Resolved (cb_res c)) =
    (if own then stored else Some old_token_client).
Proof.
  apply (extendAccessToken_forms_are_opposite old_token_client own_token_params
           (Callback VNull (VObject (<["access_token" := VString "new"]> ∅))));
    reflexivity.
Defined.

Lemma exchange_params_fields_witness :
  Graph.exchange_params old_token_client own_token_params !! "access_token" =
  own_token_params !! "access_token".
Proof.
  apply (proj2 (proj2 (exchange_params_fields old_token_client own_token_params)));
    discriminate.
Defined.

(** After [setAccessToken(null)] the forms carry [null] and the URL
    carries no token. *)
Example null_token_in_forms :
  let g := setAccessToken TokenNull defaultGraph in
  Graph.default_postData g "me" = VObject (<["access_token" := VNull]> ∅)
  ∧ Graph.exchange_params g ∅ !! "fb_exchange_token" = Some VNull
  ∧ Graph.batch_fields g (VArray []) !! "access_token" = Some VNull
  ∧ cleanUrl g "me" = "/me".
Proof. vm_compute. done. Qed.


End ConcreteShapes.
